(** * Discrete steerers (kornia/feature/steerers.py)

    A shallow embedding of [DiscreteSteerer] and of the tensor primitives it
    calls.  Tensors are float32 tensors, torch's default, and their entries
    are read as the real numbers they denote: every rounding step is left
    out.  Two overflows are kept, since they change the result and not its
    last digits: that of the sum of squares in the normalization, and that
    of a Python int converted to float.  Python exceptions are values of the
    error type [exn]. *)

From Stdlib Require Import String.
From Stdlib Require Import List ZArith Reals Lra Lia Bool.
From Stdlib Require Import ClassicalEpsilon FunctionalExtensionality.
Import ListNotations.
Local Open Scope R_scope.

(** ** Exceptions and the error monad *)

Inductive exn : Set :=
| ValueError          (* raised by [from_pretrained] *)
| ZeroDivisionError   (* Python float division by zero *)
| OverflowError       (* Python: int too large to convert to float *)
| ShapeError.         (* torch's RuntimeError on incompatible shapes *)

Inductive result (A : Type) : Type :=
| Ok (a : A)
| Raise (e : exn).
Arguments Ok {A} a.
Arguments Raise {A} e.

Definition bind {A B : Type} (m : result A) (k : A -> result B) : result B :=
  match m with
  | Ok a => k a
  | Raise e => Raise e
  end.

Notation "x <- m ;; k" := (bind m (fun x => k))
  (at level 61, m at next level, right associativity).

(** ** Tensors

    A two-dimensional tensor: its rows, and the length of a row kept apart so
    that a batch of no rows still has a width, as [torch.Size([0, N])] has. *)

Record Tensor : Type := mkTensor { ncols : nat; rows : list (list R) }.

Definition nrows (t : Tensor) : nat := length (rows t).
Definition shape (t : Tensor) : nat * nat := (nrows t, ncols t).

(** Every row has the declared width: what every tensor of the library
    satisfies. *)
Definition rectangular (t : Tensor) : Prop :=
  Forall (fun r => length r = ncols t) (rows t).

Definition entry (t : Tensor) (i j : nat) : R := nth j (nth i (rows t) []) 0.

(** [torch.tensor] of a nested list literal. *)
Definition tensor (l : list (list R)) : Tensor :=
  mkTensor (length (hd [] l)) l.

(** [torch.zeros([n, m])]. *)
Definition zeros (n m : nat) : Tensor := mkTensor m (repeat (repeat 0 m) n).

(** [c * t] for a Python float [c]. *)
Definition scale (c : R) (t : Tensor) : Tensor :=
  mkTensor (ncols t) (map (map (Rmult c)) (rows t)).

(** [torch.block_diag]: the blocks along the diagonal, zero elsewhere. *)
Definition block_diag2 (a b : Tensor) : Tensor :=
  mkTensor (ncols a + ncols b)
    (map (fun r => r ++ repeat 0 (ncols b)) (rows a) ++
     map (fun r => repeat 0 (ncols a) ++ r) (rows b)).

Definition block_diag (ts : list Tensor) : Tensor :=
  fold_right block_diag2 (mkTensor 0 []) ts.

Fixpoint dot (x w : list R) : R :=
  match x, w with
  | a :: x', b :: w' => a * b + dot x' w'
  | _, _ => 0
  end.

(** [torch.nn.functional.linear(x, weight)] with no bias: [weight] has shape
    (out_features, in_features), [x] has shape (M, in_features), and entry
    (m, o) of the result is the dot product of row [m] of [x] with row [o]
    of [weight].  A width of [x] other than in_features is refused. *)
Definition linear (x weight : Tensor) : result Tensor :=
  if Nat.eqb (ncols x) (ncols weight)
  then Ok (mkTensor (nrows weight)
             (map (fun r => map (dot r) (rows weight)) (rows x)))
  else Raise ShapeError.

(** [torch.nn.functional.normalize(x, dim=-1)], with its defaults [p = 2] and
    [eps = 1e-12]: every row is divided by [max(norm, eps)].  The norm is
    computed in float32: a sum of squares above the largest float32,
    [(2 - 2^-23) * 2^127], is infinite, so is the norm, and a finite entry
    divided by it is 0. *)
Definition normalize_eps : R := 1e-12.

Definition float32_max : R := 340282346638528859811704183484516925440.

Definition sum_sq (r : list R) : R := fold_right (fun x acc => x * x + acc) 0 r.
Definition norm2 (r : list R) : R := sqrt (sum_sq r).

Definition normalize_row (r : list R) : list R :=
  if Rlt_dec float32_max (sum_sq r) then map (fun _ => 0) r
  else
    let denom := Rmax (norm2 r) normalize_eps in
    map (fun x => x / denom) r.

Definition normalize (x : Tensor) : Tensor :=
  mkTensor (ncols x) (map normalize_row (rows x)).

(** ** Matrix product, transpose and exponential *)

Fixpoint sum_upto (n : nat) (f : nat -> R) : R :=
  match n with
  | O => 0
  | S n' => sum_upto n' f + f n'
  end.

Definition transpose (t : Tensor) : Tensor :=
  mkTensor (nrows t)
    (map (fun j => map (fun r => nth j r 0) (rows t)) (seq 0 (ncols t))).

(** Entry (i, j) of [a · b] is the sum over k of [a(i,k) * b(k,j)]. *)
Definition matmul_entries (a b : Tensor) : Tensor :=
  mkTensor (ncols b)
    (map (fun r =>
            map (fun j => sum_upto (ncols a) (fun k => nth k r 0 * entry b k j))
                (seq 0 (ncols b)))
         (rows a)).

Definition matmul (a b : Tensor) : result Tensor :=
  if Nat.eqb (ncols a) (nrows b) then Ok (matmul_entries a b)
  else Raise ShapeError.

Definition tabulate (n m : nat) (f : nat -> nat -> R) : Tensor :=
  mkTensor m (map (fun i => map (f i) (seq 0 m)) (seq 0 n)).

Definition identity (n : nat) : Tensor :=
  tabulate n n (fun i j => if Nat.eqb i j then 1 else 0).

Definition tensor_add (a b : Tensor) : Tensor :=
  tabulate (nrows a) (ncols a) (fun i j => entry a i j + entry b i j).

Fixpoint matrix_power (a : Tensor) (n : nat) : Tensor :=
  match n with
  | O => identity (ncols a)
  | S n' => matmul_entries (matrix_power a n') a
  end.

(** The partial sums of the exponential series: the sum of [a^n / n!] for
    [n <= N]. *)
Fixpoint exp_partial_sum (a : Tensor) (N : nat) : Tensor :=
  match N with
  | O => identity (ncols a)
  | S N' => tensor_add (exp_partial_sum a N')
              (scale (/ INR (fact N)) (matrix_power a N))
  end.

(** The limit of a real sequence (any real when there is none). *)
Definition real_limit (u : nat -> R) : R :=
  epsilon (inhabits 0) (fun l => Un_cv u l).

(** The entrywise limit of the exponential series. *)
Definition matrix_exp_entries (a : Tensor) : Tensor :=
  tabulate (nrows a) (ncols a)
    (fun i j => real_limit (fun N => entry (exp_partial_sum a N) i j)).

(** [torch.matrix_exp]: the exponential of a square matrix; a matrix that is
    not square is refused. *)
Definition matrix_exp (a : Tensor) : result Tensor :=
  if Nat.eqb (nrows a) (ncols a) then Ok (matrix_exp_entries a)
  else Raise ShapeError.

(** ** Python's [range] and [for] *)

Definition range2 (lo hi : Z) : list Z :=
  map (fun i => (lo + Z.of_nat i)%Z) (seq 0 (Z.to_nat (hi - lo))).

Definition range (n : Z) : list Z := range2 0 n.

(** [for a in l: s = body(a, s)], an exception of the body ending the loop. *)
Fixpoint for_each {A S : Type} (l : list A) (body : A -> S -> result S) (s : S)
  : result S :=
  match l with
  | [] => Ok s
  | a :: l' => s' <- body a s ;; for_each l' body s'
  end.

(** ** DiscreteSteerer *)

Record DiscreteSteerer : Type := mkSteerer {
  generator : Tensor;
  training : bool   (* the flag of [torch.nn.Module] *)
}.

(** [DiscreteSteerer(generator)]: a new module is in training mode. *)
Definition init (generator : Tensor) : DiscreteSteerer :=
  mkSteerer generator true.

(** [module.eval()]. *)
Definition eval (self : DiscreteSteerer) : DiscreteSteerer :=
  mkSteerer (generator self) false.

Definition forward (self : DiscreteSteerer) (x : Tensor) : result Tensor :=
  linear x (generator self).

Definition steer_descriptions (self : DiscreteSteerer) (descriptions : Tensor)
    (steerer_power : Z) (do_normalize : bool) : result Tensor :=
  descriptions <-
    for_each (range steerer_power) (fun _ d => forward self d) descriptions ;;
  let descriptions :=
    if do_normalize then normalize descriptions else descriptions in
  Ok descriptions.

Definition descriptor_dim : Z := 256.

Definition c4_block : Tensor :=
  tensor [[0; 1; 0; 0];
          [0; 0; 1; 0];
          [0; 0; 0; 1];
          [1; 0; 0; 0]].

Definition so2_block (j : Z) : Tensor :=
  tensor [[0; IZR j];
          [- IZR j; 0]].

(** The size of the leading zero block, with Python's precedence:
    [descriptor_dim - 12 * descriptor_dim // 14] is
    [descriptor_dim - ((12 * descriptor_dim) // 14)]. *)
Definition so2_zero_block_size : nat :=
  Z.to_nat (descriptor_dim - ((12 * descriptor_dim) / 14)).

Definition so2_lie_generator : Tensor :=
  block_diag
    (zeros so2_zero_block_size so2_zero_block_size ::
     flat_map (fun j => map (fun _ => so2_block j) (range (descriptor_dim / 14)))
              (range2 1 7)).

Definition c4_generator : Tensor :=
  block_diag (map (fun _ => c4_block) (range (descriptor_dim / 4))).

(** Python converts the int [n] to a float to divide by it, rounding to the
    nearest double, ties to even: the conversion raises OverflowError when
    [|n|] is [2^1024 - 2^970] or more, the first value that rounds to
    [2^1024]. *)
Definition float_max_int : Z := 2 ^ 1024 - 2 ^ 970.

Definition int_to_float_overflows (n : Z) : bool :=
  Z.leb float_max_int (Z.abs n).

Definition from_pretrained (generator_type : string) (steerer_order : Z)
  : result DiscreteSteerer :=
  if String.eqb generator_type "C4"%string then
    let generator := c4_generator in
    Ok (eval (init generator))
  else if String.eqb generator_type "SO2"%string then
    let lie_generator := so2_lie_generator in
    if int_to_float_overflows steerer_order then Raise OverflowError
    else if Z.eqb steerer_order 0 then Raise ZeroDivisionError
    else
      generator <-
        matrix_exp (scale (2 * 3.14159 / IZR steerer_order) lie_generator) ;;
      Ok (eval (init generator))
  else Raise ValueError.

(** ** The words of the specification *)

(** "apply composed with itself k times": the k-fold Kleisli power of
    [forward], the last application outermost. *)
Fixpoint apply_times (self : DiscreteSteerer) (k : nat) (x : Tensor)
  : result Tensor :=
  match k with
  | O => Ok x
  | S k' => y <- apply_times self k' x ;; forward self y
  end.

(** The cyclic shift of every group of four coordinates, (a, b, c, d) going
    to (b, c, d, a): what the 4 x 4 block does to a vector. *)
Fixpoint rot4 (r : list R) : list R :=
  match r with
  | a :: b :: c :: d :: r' => b :: c :: d :: a :: rot4 r'
  | _ => r
  end.

(** Entry (i, j) of the block-diagonal matrix of copies of a 4 x 4 block. *)
Definition c4_entry (i j : nat) : R :=
  if Nat.eqb (i / 4) (j / 4) then entry c4_block (i mod 4) (j mod 4) else 0.

(** Entry (i, j) of the block-diagonal matrix of copies of the cyclic
    permutation block [[0,1,0,0],[0,0,1,0],[0,0,0,1],[1,0,0,0]]: 1 when i and
    j lie in one group of four and j follows i cyclically in it, else 0. *)
Definition cyclic_entry (i j : nat) : R :=
  if Nat.eqb (i / 4) (j / 4) && Nat.eqb (j mod 4) ((i mod 4 + 1) mod 4)
  then 1 else 0.

(** The batch of the one row (1, 0, ..., 0) of length 256. *)
Definition first_unit_batch : Tensor :=
  tabulate 1 256 (fun _ j => if Nat.eqb j 0 then 1 else 0).


(** ** Notions used to describe the SO2 generator *)
(** Entry (i, j) of the block-diagonal matrix of an n x m block of entries
    [f] and a block of entries [g]. *)
Definition block_entry (n m : nat) (f g : nat -> nat -> R) (i j : nat) : R :=
  if Nat.ltb i n
  then (if Nat.ltb j m then f i j else 0)
  else (if Nat.ltb j m then 0 else g (i - n)%nat (j - m)%nat).

(** A square tensor of size n. *)
Definition square (n : nat) (t : Tensor) : Prop :=
  rectangular t /\ shape t = (n, n).

Definition is_square (t : Tensor) : Prop := square (ncols t) t.

(** The matrices [[p, q], [-q, p]], among them the generator of the plane
    rotations and the rotations themselves. *)
Definition rot_like (p q : R) : Tensor := tensor [[p; q]; [- q; p]].
Definition antisym (a : R) : Tensor := rot_like 0 a.
Definition rotation (a : R) : Tensor := rot_like (cos a) (sin a).

(** The entries (p, q) of the k-th power of [antisym a], and of the partial
    sums of its exponential series. *)
Fixpoint antisym_pow (a : R) (k : nat) : R * R :=
  match k with
  | O => (1, 0)
  | S k' => let (p, q) := antisym_pow a k' in (- (q * a), p * a)
  end.

Fixpoint antisym_sum (a : R) (N : nat) : R * R :=
  match N with
  | O => (1, 0)
  | S N' =>
      let (u, v) := antisym_sum a N' in
      let (p, q) := antisym_pow a N in
      (u + / INR (fact N) * p, v + / INR (fact N) * q)
  end.

(** The frequencies of the SO2 blocks, in the order of the blocks, and the
    matrix of the rotations by [c] times these frequencies behind an
    identity block. *)
Definition so2_frequencies : list R :=
  flat_map (fun j => repeat (IZR j) (Z.to_nat (descriptor_dim / 14)))
           (range2 1 7).

Definition so2_rotations (c : R) : Tensor :=
  block_diag (identity so2_zero_block_size ::
              map (fun f => rotation (c * f)) so2_frequencies).

(** What [linear] does to one row. *)
Definition act (t : Tensor) (r : list R) : list R := map (dot r) (rows t).



(** * Properties *)

(** Case analysis on the position of an entry with respect to the blocks. *)
Ltac block_cases :=
  unfold block_entry;
  repeat match goal with
         | |- context [Nat.ltb ?x ?y] => destruct (Nat.ltb_spec x y); try lia
         end.

(** ** The error monad and the loop *)

Lemma bind_ok_r {A : Type} (m : result A) : (x <- m ;; Ok x) = m.
Proof. destruct m; reflexivity. Qed.

Lemma bind_assoc {A B C : Type} (m : result A) (f : A -> result B)
    (g : B -> result C) :
  (y <- (x <- m ;; f x) ;; g y) = (x <- m ;; y <- f x ;; g y).
Proof. destruct m; reflexivity. Qed.

Lemma range_length (n : Z) : length (range n) = Z.to_nat n.
Proof.
  unfold range, range2. rewrite length_map, length_seq.
  f_equal. lia.
Qed.

Lemma apply_times_first (self : DiscreteSteerer) (k : nat) (x : Tensor) :
  apply_times self (S k) x = (y <- forward self x ;; apply_times self k y).
Proof.
  induction k as [|k IH].
  - simpl. now rewrite bind_ok_r.
  - change (apply_times self (S (S k)) x)
      with (y <- apply_times self (S k) x ;; forward self y).
    rewrite IH, bind_assoc. reflexivity.
Qed.

(** A loop whose body ignores the loop variable runs the body once per
    element. *)
Lemma for_each_const {A : Type} (self : DiscreteSteerer) (l : list A)
    (x : Tensor) :
  for_each l (fun _ d => forward self d) x = apply_times self (length l) x.
Proof.
  revert x. induction l as [|a l IH]; intro x.
  - reflexivity.
  - cbn [for_each length]. rewrite apply_times_first.
    destruct (forward self x); simpl; auto.
Qed.

Lemma steer_unfold (self : DiscreteSteerer) (x : Tensor) (k : Z) (b : bool) :
  steer_descriptions self x k b =
  (y <- apply_times self (Z.to_nat k) x ;;
   Ok (if b then normalize y else y)).
Proof.
  unfold steer_descriptions. now rewrite for_each_const, range_length.
Qed.

Lemma steer_once (self : DiscreteSteerer) (x : Tensor) (b : bool) :
  steer_descriptions self x 1 b =
  (y <- forward self x ;; Ok (if b then normalize y else y)).
Proof.
  rewrite steer_unfold. change (Z.to_nat 1) with 1%nat.
  rewrite apply_times_first. destruct (forward self x); reflexivity.
Qed.

(** ** Steering is iterated application *)

(** C3: for every batch X and every non-negative integer k, steering X with
    power k and no normalization is [forward] composed with itself k times;
    with power 0 the batch comes back unchanged. *)
Theorem steer_is_iterated_apply (self : DiscreteSteerer) (X : Tensor) (k : Z) :
  (0 <= k)%Z ->
  steer_descriptions self X k false = apply_times self (Z.to_nat k) X /\
  steer_descriptions self X 0 false = Ok X.
Proof.
  intros _. split.
  - rewrite steer_unfold. apply bind_ok_r.
  - reflexivity.
Qed.

Lemma steer_is_iterated_apply_witness :
  (0 <= 2)%Z /\
  (steer_descriptions (init c4_block) (tensor [[1; 0; 0; 0]]) 2 false =
     apply_times (init c4_block) (Z.to_nat 2) (tensor [[1; 0; 0; 0]]) /\
   steer_descriptions (init c4_block) (tensor [[1; 0; 0; 0]]) 0 false =
     Ok (tensor [[1; 0; 0; 0]])).
Proof.
  split; [lia | apply (steer_is_iterated_apply _ _ 2); lia].
Defined.

(** ** Errors *)

(** C7: a generator type other than "C4" and "SO2" makes [from_pretrained]
    raise ValueError; no steerer is returned. *)
Theorem from_pretrained_invalid (generator_type : string) (steerer_order : Z) :
  generator_type <> "C4"%string ->
  generator_type <> "SO2"%string ->
  from_pretrained generator_type steerer_order = Raise ValueError /\
  (forall s, from_pretrained generator_type steerer_order <> Ok s).
Proof.
  intros H4 H2. unfold from_pretrained.
  destruct (String.eqb_spec generator_type "C4"); [contradiction|].
  destruct (String.eqb_spec generator_type "SO2"); [contradiction|].
  split; [reflexivity | discriminate].
Qed.

Lemma from_pretrained_invalid_witness :
  "invalid"%string <> "C4"%string /\
  "invalid"%string <> "SO2"%string /\
  from_pretrained "invalid" 8 = Raise ValueError /\
  (forall s, from_pretrained "invalid" 8 <> Ok s).
Proof.
  split; [discriminate|]. split; [discriminate|].
  apply from_pretrained_invalid; discriminate.
Defined.

Lemma forward_mismatch (self : DiscreteSteerer) (X : Tensor) :
  ncols X <> ncols (generator self) -> forward self X = Raise ShapeError.
Proof.
  intros H. unfold forward, linear.
  apply Nat.eqb_neq in H. now rewrite H.
Qed.

Lemma steer_mismatch (self : DiscreteSteerer) (X : Tensor) (k : Z) (b : bool) :
  ncols X <> ncols (generator self) ->
  (1 <= k)%Z ->
  steer_descriptions self X k b = Raise ShapeError.
Proof.
  intros HX Hk. rewrite steer_unfold.
  destruct (Z.to_nat k) as [|n] eqn:E; [lia|].
  rewrite apply_times_first, forward_mismatch by exact HX. reflexivity.
Qed.

(** C8: when the generator is N x N and the rows of the batch have a length
    other than N, [forward] raises the shape error of [linear], and so does
    steering with a power of at least one: the error is passed on as it is. *)
Theorem forward_shape_mismatch (self : DiscreteSteerer) (X : Tensor) (N : nat) :
  shape (generator self) = (N, N) ->
  ncols X <> N ->
  forward self X = linear X (generator self) /\
  forward self X = Raise ShapeError /\
  (forall k b, (1 <= k)%Z -> steer_descriptions self X k b = Raise ShapeError).
Proof.
  intros Hs HX. injection Hs as _ Hc. subst N.
  split; [reflexivity|]. split; [now apply forward_mismatch|].
  intros k b Hk. now apply steer_mismatch.
Qed.

Lemma forward_shape_mismatch_witness :
  shape (generator (init c4_block)) = (4, 4)%nat /\
  ncols (tensor [[1; 2; 3]]) <> 4%nat /\
  forward (init c4_block) (tensor [[1; 2; 3]]) =
    linear (tensor [[1; 2; 3]]) (generator (init c4_block)) /\
  forward (init c4_block) (tensor [[1; 2; 3]]) = Raise ShapeError /\
  (forall k b, (1 <= k)%Z ->
     steer_descriptions (init c4_block) (tensor [[1; 2; 3]]) k b =
       Raise ShapeError).
Proof.
  split; [reflexivity|]. split; [simpl; lia|].
  apply (forward_shape_mismatch (init c4_block) (tensor [[1; 2; 3]]) 4);
    [reflexivity | simpl; lia].
Defined.

(** ** The C4 variant does not read the order *)

(** C9: whatever the two orders, [from_pretrained "C4"] returns the same
    steerer, hence the same generator: the order is not read. *)
Theorem c4_ignores_steerer_order (k1 k2 : Z) :
  from_pretrained "C4" k1 = from_pretrained "C4" k2 /\
  from_pretrained "C4" k1 = Ok (mkSteerer c4_generator false).
Proof. split; reflexivity. Qed.

(** ** Normalization *)




























(** ** The forward pass is a product with the transposed generator *)

Lemma sum_upto_ext (n : nat) (f g : nat -> R) :
  (forall k, (k < n)%nat -> f k = g k) -> sum_upto n f = sum_upto n g.
Proof.
  induction n as [|n IH]; intros H; simpl.
  - reflexivity.
  - rewrite IH by (intros; apply H; lia). now rewrite H by lia.
Qed.

Lemma sum_upto_first (n : nat) (f : nat -> R) :
  sum_upto (S n) f = f O + sum_upto n (fun k => f (S k)).
Proof.
  induction n as [|n IH].
  - simpl. ring.
  - change (sum_upto (S (S n)) f) with (sum_upto (S n) f + f (S n)).
    rewrite IH. simpl. ring.
Qed.

Lemma dot_sum (x w : list R) :
  length w = length x ->
  dot x w = sum_upto (length x) (fun k => nth k x 0 * nth k w 0).
Proof.
  revert w. induction x as [|a x IH]; intros [|b w] H; try discriminate.
  - reflexivity.
  - cbn [length]. rewrite sum_upto_first. cbn [dot nth].
    rewrite IH by (simpl in H; lia). reflexivity.
Qed.

Lemma nth_nil_0 (k : nat) : nth k (@nil R) 0 = 0.
Proof. now destruct k. Qed.

Lemma nth_map_seq {A : Type} (g : nat -> A) (n k : nat) (d : A) :
  (k < n)%nat -> nth k (map g (seq 0 n)) d = g k.
Proof.
  intros H. rewrite (nth_indep _ d (g O)) by now rewrite length_map, length_seq.
  rewrite map_nth, seq_nth by exact H. reflexivity.
Qed.

Lemma entry_transpose (t : Tensor) (k j : nat) :
  (k < ncols t)%nat -> entry (transpose t) k j = entry t j k.
Proof.
  intros H. unfold entry, transpose. cbn [rows].
  rewrite nth_map_seq by exact H.
  rewrite <- (nth_nil_0 k) at 1.
  now rewrite (map_nth (fun r => nth k r 0)).
Qed.

Lemma list_as_map_nth {A : Type} (l : list A) (d : A) :
  l = map (fun j => nth j l d) (seq 0 (length l)).
Proof.
  apply (nth_ext _ _ d d).
  - now rewrite length_map, length_seq.
  - intros n H. now rewrite nth_map_seq.
Qed.

Lemma rectangular_nth (t : Tensor) (j : nat) :
  rectangular t -> (j < nrows t)%nat -> length (nth j (rows t) []) = ncols t.
Proof.
  intros Hr Hj. unfold rectangular in Hr. rewrite Forall_forall in Hr.
  apply Hr, nth_In, Hj.
Qed.

Lemma linear_is_matmul_transpose (x w : Tensor) :
  rectangular w -> rectangular x -> ncols x = ncols w ->
  linear x w = Ok (matmul_entries x (transpose w)).
Proof.
  intros Hw Hx Hc. unfold linear, matmul_entries.
  rewrite Hc, Nat.eqb_refl. cbn [ncols transpose]. do 2 f_equal.
  apply map_ext_in. intros r Hr.
  assert (Hlen : length r = ncols w).
  { unfold rectangular in Hx. rewrite Forall_forall in Hx.
    rewrite <- Hc. now apply Hx. }
  rewrite (list_as_map_nth (rows w) []) at 1. rewrite map_map.
  apply map_ext_in. intros j Hj. apply in_seq in Hj.
  assert (Hj' : length (nth j (rows w) []) = ncols w)
    by (apply rectangular_nth; [exact Hw | lia]).
  rewrite dot_sum by congruence. rewrite Hlen.
  apply sum_upto_ext. intros k Hk.
  rewrite entry_transpose by exact Hk. reflexivity.
Qed.

(** C2: for an N x N generator G and a batch X of N-vectors, the forward pass
    is the matrix product of X with the transpose of G, and nothing is
    added to it. *)
Theorem forward_is_matmul_transpose (self : DiscreteSteerer) (X : Tensor)
    (N : nat) :
  rectangular (generator self) ->
  shape (generator self) = (N, N) ->
  rectangular X ->
  ncols X = N ->
  forward self X = matmul X (transpose (generator self)) /\
  forward self X = Ok (matmul_entries X (transpose (generator self))).
Proof.
  intros Hg Hs Hx Hc. injection Hs as Hn Hm.
  assert (H : forward self X =
              Ok (matmul_entries X (transpose (generator self))))
    by (apply linear_is_matmul_transpose; auto; congruence).
  split; [|exact H].
  rewrite H. unfold matmul, transpose, nrows. cbn [rows].
  rewrite length_map, length_seq, Hc, Hm, Nat.eqb_refl. reflexivity.
Qed.

Lemma forward_is_matmul_transpose_witness :
  rectangular (generator (init c4_block)) /\
  shape (generator (init c4_block)) = (4, 4)%nat /\
  rectangular (tensor [[1; 2; 3; 4]; [5; 6; 7; 8]]) /\
  ncols (tensor [[1; 2; 3; 4]; [5; 6; 7; 8]]) = 4%nat /\
  forward (init c4_block) (tensor [[1; 2; 3; 4]; [5; 6; 7; 8]]) =
    matmul (tensor [[1; 2; 3; 4]; [5; 6; 7; 8]])
           (transpose (generator (init c4_block))) /\
  forward (init c4_block) (tensor [[1; 2; 3; 4]; [5; 6; 7; 8]]) =
    Ok (matmul_entries (tensor [[1; 2; 3; 4]; [5; 6; 7; 8]])
                       (transpose (generator (init c4_block)))).
Proof.
  assert (H1 : rectangular (generator (init c4_block)))
    by (repeat constructor).
  assert (H2 : rectangular (tensor [[1; 2; 3; 4]; [5; 6; 7; 8]]))
    by (repeat constructor).
  split; [exact H1|]. split; [reflexivity|]. split; [exact H2|].
  split; [reflexivity|].
  apply (forward_is_matmul_transpose (init c4_block)
           (tensor [[1; 2; 3; 4]; [5; 6; 7; 8]]) 4 H1 eq_refl H2 eq_refl).
Defined.

(** ** Block-diagonal generators act block by block *)

Lemma dot_app (x1 x2 w1 w2 : list R) :
  length x1 = length w1 ->
  dot (x1 ++ x2) (w1 ++ w2) = dot x1 w1 + dot x2 w2.
Proof.
  revert w1. induction x1 as [|a x1 IH]; intros [|b w1] H; try discriminate.
  - simpl. ring.
  - simpl. rewrite IH by (simpl in H; lia). ring.
Qed.

Lemma dot_zeros_r (x : list R) (n : nat) : dot x (repeat 0 n) = 0.
Proof.
  revert n. induction x as [|a x IH]; intros [|n]; simpl; try reflexivity.
  rewrite IH. ring.
Qed.

Lemma linear_rows_block_diag2 (a b : Tensor) (r1 r2 : list R) :
  rectangular a ->
  length r1 = ncols a ->
  map (dot (r1 ++ r2)) (rows (block_diag2 a b)) =
  map (dot r1) (rows a) ++ map (dot r2) (rows b).
Proof.
  intros Ha Hr. unfold block_diag2. cbn [rows].
  rewrite map_app, !map_map. f_equal.
  - apply map_ext_in. intros w Hw.
    unfold rectangular in Ha. rewrite Forall_forall in Ha.
    rewrite dot_app by (rewrite (Ha w Hw); exact Hr).
    rewrite dot_zeros_r. ring.
  - apply map_ext. intros w.
    rewrite dot_app by now rewrite repeat_length.
    rewrite dot_zeros_r. ring.
Qed.

Lemma block_diag_cons (t : Tensor) (ts : list Tensor) :
  block_diag (t :: ts) = block_diag2 t (block_diag ts).
Proof. reflexivity. Qed.

Lemma c4_block_rectangular : rectangular c4_block.
Proof. repeat constructor. Qed.

Lemma c4_block_rows (a b c d : R) :
  map (dot [a; b; c; d]) (rows c4_block) = [b; c; d; a].
Proof. simpl. repeat f_equal; ring. Qed.

Lemma c4_blocks_rows (n : nat) (r : list R) :
  length r = (4 * n)%nat ->
  map (dot r) (rows (block_diag (repeat c4_block n))) = rot4 r.
Proof.
  revert r. induction n as [|n IH]; intros r H.
  - destruct r; [reflexivity | discriminate].
  - destruct r as [|a [|b [|c [|d r]]]]; try (simpl in H; lia).
    cbn [repeat]. rewrite block_diag_cons.
    change (a :: b :: c :: d :: r) with ([a; b; c; d] ++ r).
    rewrite linear_rows_block_diag2
      by (exact c4_block_rectangular || reflexivity).
    rewrite c4_block_rows, IH by (simpl in H; lia).
    reflexivity.
Qed.

Lemma rot4_length (r : list R) : length (rot4 r) = length r.
Proof.
  assert (H : forall n r, (length r <= n)%nat -> length (rot4 r) = length r).
  { induction n as [|n IH]; intros l Hl.
    - destruct l; [reflexivity | simpl in Hl; lia].
    - destruct l as [|a [|b [|c [|d l]]]]; try reflexivity.
      cbn [rot4 length]. rewrite IH by (simpl in Hl; lia). reflexivity. }
  now apply (H (length r)).
Qed.

Lemma rot4_four_times (r : list R) : rot4 (rot4 (rot4 (rot4 r))) = r.
Proof.
  assert (H : forall n r, (length r <= n)%nat ->
                          rot4 (rot4 (rot4 (rot4 r))) = r).
  { induction n as [|n IH]; intros l Hl.
    - destruct l; [reflexivity | simpl in Hl; lia].
    - destruct l as [|a [|b [|c [|d l]]]]; try reflexivity.
      cbn [rot4]. rewrite IH by (simpl in Hl; lia). reflexivity. }
  now apply (H (length r)).
Qed.

Lemma c4_generator_blocks : c4_generator = block_diag (repeat c4_block 64).
Proof. reflexivity. Qed.

Lemma c4_generator_shape : shape c4_generator = (256, 256)%nat.
Proof. vm_compute. reflexivity. Qed.

Lemma c4_generator_entries : c4_generator = tabulate 256 256 c4_entry.
Proof. vm_compute. reflexivity. Qed.

Lemma tabulate_rectangular (n m : nat) (f : nat -> nat -> R) :
  rectangular (tabulate n m f).
Proof.
  unfold rectangular, tabulate. cbn [rows ncols].
  apply Forall_forall. intros r Hr. apply in_map_iff in Hr.
  destruct Hr as [i [<- _]]. now rewrite length_map, length_seq.
Qed.

Lemma c4_forward (self : DiscreteSteerer) (X : Tensor) :
  generator self = c4_generator ->
  rectangular X ->
  ncols X = 256%nat ->
  forward self X = Ok (mkTensor 256 (map rot4 (rows X))).
Proof.
  intros Hg HX Hc. unfold forward, linear. rewrite Hg.
  replace (ncols c4_generator) with 256%nat by (vm_compute; reflexivity).
  replace (nrows c4_generator) with 256%nat by (vm_compute; reflexivity).
  rewrite Hc, Nat.eqb_refl. do 2 f_equal.
  apply map_ext_in. intros r Hr.
  unfold rectangular in HX. rewrite Forall_forall in HX.
  rewrite c4_generator_blocks.
  apply c4_blocks_rows. rewrite (HX r Hr), Hc. reflexivity.
Qed.

Lemma rot4_rectangular (n : nat) (l : list (list R)) :
  rectangular (mkTensor n l) -> rectangular (mkTensor n (map rot4 l)).
Proof.
  unfold rectangular. cbn [rows ncols]. intros H.
  apply Forall_map. eapply Forall_impl; [|exact H].
  intros r Hr. cbn beta. now rewrite rot4_length.
Qed.

Lemma tensor_eta (X : Tensor) : mkTensor (ncols X) (rows X) = X.
Proof. now destruct X. Qed.

Lemma c4_apply_four_times (self : DiscreteSteerer) (X : Tensor) :
  generator self = c4_generator ->
  rectangular X ->
  ncols X = 256%nat ->
  apply_times self 4 X = Ok X.
Proof.
  intros Hg HX Hc.
  assert (HX' : rectangular (mkTensor 256 (rows X)))
    by (rewrite <- Hc, tensor_eta; exact HX).
  do 4 (rewrite apply_times_first;
        rewrite c4_forward by
          (assumption || reflexivity || (repeat apply rot4_rectangular; assumption));
        cbn [bind rows]).
  cbn [apply_times]. rewrite !map_map.
  rewrite (map_ext _ (fun r => r)) by (intros r; apply rot4_four_times).
  rewrite map_id, <- Hc. now rewrite tensor_eta.
Qed.

(** ** The two pretrained generators *)

Lemma c4_generator_cyclic : c4_generator = tabulate 256 256 cyclic_entry.
Proof. vm_compute. reflexivity. Qed.

Lemma c4_steer_first_unit (k : nat) :
  apply_times (mkSteerer c4_generator false) k first_unit_batch =
  Ok (mkTensor 256 (map (Nat.iter k rot4) (rows first_unit_batch))).
Proof.
  induction k as [|k IH].
  - reflexivity.
  - cbn [apply_times]. rewrite IH. cbn [bind].
    rewrite c4_forward.
    + cbn [rows]. rewrite map_map. reflexivity.
    + reflexivity.
    + clear IH. unfold rectangular. cbn [rows ncols].
      apply Forall_map, Forall_forall. intros r Hr.
      assert (Hl : length r = 256%nat).
      { pose proof (tabulate_rectangular 1 256
                      (fun _ j => if Nat.eqb j 0 then 1 else 0)) as HR.
        unfold rectangular in HR. rewrite Forall_forall in HR.
        exact (HR r Hr). }
      rewrite <- Hl. clear Hl Hr. induction k as [|k IH].
      * reflexivity.
      * rewrite Nat.iter_succ, rot4_length. exact IH.
    + reflexivity.
Qed.

Lemma c4_steer_first_unit_at (k : Z) (p : nat) :
  map (Nat.iter (Z.to_nat k) rot4) (rows first_unit_batch) =
    rows (tabulate 1 256 (fun _ j => if Nat.eqb j p then 1 else 0)) ->
  steer_descriptions (mkSteerer c4_generator false) first_unit_batch k false =
  Ok (tabulate 1 256 (fun _ j => if Nat.eqb j p then 1 else 0)).
Proof.
  intros H. rewrite steer_unfold, c4_steer_first_unit. cbn [bind].
  now rewrite H.
Qed.

Lemma unit_batch_differs (p : nat) :
  entry (tabulate 1 256 (fun _ j => if Nat.eqb j p then 1 else 0)) 0 0 = 0 ->
  tabulate 1 256 (fun _ j => if Nat.eqb j p then 1 else 0) <>
  first_unit_batch.
Proof.
  intros H E. rewrite E in H.
  change (entry first_unit_batch 0 0) with 1 in H. lra.
Qed.

(** C5: [from_pretrained "C4"] returns the steerer, in inference mode, whose
    generator is the 256 x 256 block-diagonal matrix of 64 copies of the
    4 x 4 cyclic permutation block
    [[0,1,0,0],[0,0,1,0],[0,0,0,1],[1,0,0,0]]: its entry (i, j) is 1 when i
    and j lie in one group of four and j follows i cyclically there, and 0
    otherwise.  Steering a batch of 256-vectors once by it shifts every
    group of four coordinates, (a, b, c, d) going to (b, c, d, a), and
    steering four times gives the batch back.  The period is 4 and no less:
    the vector (1, 0, ..., 0) goes to the unit vectors of the coordinates
    3, 2 and 1 after one, two and three steps, none of which is the one it
    started from. *)
Theorem c4_generator_period_four (steerer_order : Z) (X : Tensor) :
  rectangular X ->
  ncols X = 256%nat ->
  from_pretrained "C4" steerer_order = Ok (mkSteerer c4_generator false) /\
  shape c4_generator = (256, 256)%nat /\
  c4_block = mkTensor 4 [[0; 1; 0; 0];
                         [0; 0; 1; 0];
                         [0; 0; 0; 1];
                         [1; 0; 0; 0]] /\
  c4_generator = block_diag (repeat c4_block 64) /\
  c4_generator = tabulate 256 256 c4_entry /\
  c4_generator =
    tabulate 256 256
      (fun i j =>
         if Nat.eqb (i / 4) (j / 4) &&
            Nat.eqb (j mod 4) ((i mod 4 + 1) mod 4)
         then 1 else 0) /\
  steer_descriptions (mkSteerer c4_generator false) X 1 false =
    Ok (mkTensor 256 (map rot4 (rows X))) /\
  steer_descriptions (mkSteerer c4_generator false) X 4 false = Ok X /\
  steer_descriptions (mkSteerer c4_generator false) first_unit_batch 1 false =
    Ok (tabulate 1 256 (fun _ j => if Nat.eqb j 3 then 1 else 0)) /\
  steer_descriptions (mkSteerer c4_generator false) first_unit_batch 2 false =
    Ok (tabulate 1 256 (fun _ j => if Nat.eqb j 2 then 1 else 0)) /\
  steer_descriptions (mkSteerer c4_generator false) first_unit_batch 3 false =
    Ok (tabulate 1 256 (fun _ j => if Nat.eqb j 1 then 1 else 0)) /\
  tabulate 1 256 (fun _ j => if Nat.eqb j 3 then 1 else 0)
    <> first_unit_batch /\
  tabulate 1 256 (fun _ j => if Nat.eqb j 2 then 1 else 0)
    <> first_unit_batch /\
  tabulate 1 256 (fun _ j => if Nat.eqb j 1 then 1 else 0)
    <> first_unit_batch.
Proof.
  intros HX Hc.
  split; [reflexivity|]. split; [exact c4_generator_shape|].
  split; [reflexivity|].
  split; [exact c4_generator_blocks|]. split; [exact c4_generator_entries|].
  split; [exact c4_generator_cyclic|].
  split.
  { rewrite steer_once, c4_forward by (assumption || reflexivity).
    reflexivity. }
  split.
  { rewrite steer_unfold. change (Z.to_nat 4) with 4%nat.
    rewrite c4_apply_four_times by (assumption || reflexivity).
    reflexivity. }
  split; [apply c4_steer_first_unit_at; vm_compute; reflexivity|].
  split; [apply c4_steer_first_unit_at; vm_compute; reflexivity|].
  split; [apply c4_steer_first_unit_at; vm_compute; reflexivity|].
  repeat split; apply unit_batch_differs; reflexivity.
Qed.

Lemma c4_generator_period_four_witness :
  rectangular (tabulate 2 256 (fun i j => INR (i + j))) /\
  ncols (tabulate 2 256 (fun i j => INR (i + j))) = 256%nat /\
  from_pretrained "C4" 8 = Ok (mkSteerer c4_generator false) /\
  shape c4_generator = (256, 256)%nat /\
  c4_block = mkTensor 4 [[0; 1; 0; 0];
                         [0; 0; 1; 0];
                         [0; 0; 0; 1];
                         [1; 0; 0; 0]] /\
  c4_generator = block_diag (repeat c4_block 64) /\
  c4_generator = tabulate 256 256 c4_entry /\
  c4_generator =
    tabulate 256 256
      (fun i j =>
         if Nat.eqb (i / 4) (j / 4) &&
            Nat.eqb (j mod 4) ((i mod 4 + 1) mod 4)
         then 1 else 0) /\
  steer_descriptions (mkSteerer c4_generator false)
    (tabulate 2 256 (fun i j => INR (i + j))) 1 false =
    Ok (mkTensor 256
          (map rot4 (rows (tabulate 2 256 (fun i j => INR (i + j)))))) /\
  steer_descriptions (mkSteerer c4_generator false)
    (tabulate 2 256 (fun i j => INR (i + j))) 4 false =
    Ok (tabulate 2 256 (fun i j => INR (i + j))) /\
  steer_descriptions (mkSteerer c4_generator false) first_unit_batch 1 false =
    Ok (tabulate 1 256 (fun _ j => if Nat.eqb j 3 then 1 else 0)) /\
  steer_descriptions (mkSteerer c4_generator false) first_unit_batch 2 false =
    Ok (tabulate 1 256 (fun _ j => if Nat.eqb j 2 then 1 else 0)) /\
  steer_descriptions (mkSteerer c4_generator false) first_unit_batch 3 false =
    Ok (tabulate 1 256 (fun _ j => if Nat.eqb j 1 then 1 else 0)) /\
  tabulate 1 256 (fun _ j => if Nat.eqb j 3 then 1 else 0)
    <> first_unit_batch /\
  tabulate 1 256 (fun _ j => if Nat.eqb j 2 then 1 else 0)
    <> first_unit_batch /\
  tabulate 1 256 (fun _ j => if Nat.eqb j 1 then 1 else 0)
    <> first_unit_batch.
Proof.
  split; [apply tabulate_rectangular|]. split; [reflexivity|].
  apply (c4_generator_period_four 8 (tabulate 2 256 (fun i j => INR (i + j)))
           (tabulate_rectangular _ _ _) eq_refl).
Defined.

Lemma tabulate_shape (n m : nat) (f : nat -> nat -> R) :
  shape (tabulate n m f) = (n, m).
Proof.
  unfold shape, nrows, tabulate. cbn [rows ncols].
  now rewrite length_map, length_seq.
Qed.

Lemma scale_shape (c : R) (t : Tensor) : shape (scale c t) = shape t.
Proof.
  unfold shape, nrows, scale. cbn [rows ncols]. now rewrite length_map.
Qed.

Lemma matrix_exp_square (a : Tensor) (n : nat) :
  shape a = (n, n) ->
  matrix_exp a = Ok (matrix_exp_entries a) /\
  shape (matrix_exp_entries a) = (n, n).
Proof.
  intros H. injection H as Hr Hc. unfold matrix_exp, matrix_exp_entries.
  rewrite Hr, Hc, Nat.eqb_refl.
  split; [reflexivity | apply tabulate_shape].
Qed.

Lemma so2_lie_generator_shape : shape so2_lie_generator = (253, 253)%nat.
Proof. vm_compute. reflexivity. Qed.

Lemma so2_lie_generator_blocks :
  so2_lie_generator =
  block_diag (zeros 37 37 ::
              repeat (so2_block 1) 18 ++ repeat (so2_block 2) 18 ++
              repeat (so2_block 3) 18 ++ repeat (so2_block 4) 18 ++
              repeat (so2_block 5) 18 ++ repeat (so2_block 6) 18).
Proof. reflexivity. Qed.

Lemma from_pretrained_so2_unfold (k : Z) :
  from_pretrained "SO2" k =
  if int_to_float_overflows k then Raise OverflowError
  else if Z.eqb k 0 then Raise ZeroDivisionError
  else
    generator <-
      matrix_exp (scale (2 * 3.14159 / IZR k) so2_lie_generator) ;;
    Ok (eval (init generator)).
Proof. reflexivity. Qed.

Lemma from_pretrained_so2 (k : Z) :
  int_to_float_overflows k = false ->
  k <> 0%Z ->
  exists g,
    matrix_exp (scale (2 * 3.14159 / IZR k) so2_lie_generator) = Ok g /\
    from_pretrained "SO2" k = Ok (mkSteerer g false) /\
    shape g = (253, 253)%nat.
Proof.
  intros Ho Hk.
  destruct (matrix_exp_square
              (scale (2 * 3.14159 / IZR k) so2_lie_generator) 253)
    as [Hg Hs].
  { rewrite scale_shape. exact so2_lie_generator_shape. }
  eexists. split; [exact Hg|]. split; [|exact Hs].
  rewrite from_pretrained_so2_unfold, Ho.
  apply Z.eqb_neq in Hk. rewrite Hk, Hg. reflexivity.
Qed.

(** ** Tensors as tables of entries *)

Lemma tabulate_ext (n m : nat) (f g : nat -> nat -> R) :
  (forall i j, (i < n)%nat -> (j < m)%nat -> f i j = g i j) ->
  tabulate n m f = tabulate n m g.
Proof.
  intros H. unfold tabulate. f_equal.
  apply map_ext_in. intros i Hi. apply in_seq in Hi.
  apply map_ext_in. intros j Hj. apply in_seq in Hj.
  apply H; lia.
Qed.

Lemma entry_tabulate (n m : nat) (f : nat -> nat -> R) (i j : nat) :
  (i < n)%nat -> (j < m)%nat -> entry (tabulate n m f) i j = f i j.
Proof.
  intros Hi Hj. unfold entry, tabulate. cbn [rows].
  now rewrite !nth_map_seq.
Qed.

Lemma tensor_as_tabulate (t : Tensor) :
  rectangular t -> t = tabulate (nrows t) (ncols t) (entry t).
Proof.
  intros H. destruct t as [m l]. unfold tabulate, nrows, entry.
  cbn [rows ncols] in *. f_equal.
  rewrite (list_as_map_nth l []) at 1.
  apply map_ext_in. intros i Hi. apply in_seq in Hi.
  unfold rectangular in H. cbn [rows ncols] in H. rewrite Forall_forall in H.
  assert (Hl : length (nth i l []) = m) by (apply H, nth_In; lia).
  rewrite (list_as_map_nth (nth i l []) 0) at 1. now rewrite Hl.
Qed.

Lemma square_tabulate (n : nat) (f : nat -> nat -> R) :
  square n (tabulate n n f).
Proof. split; [apply tabulate_rectangular | apply tabulate_shape]. Qed.

Lemma square_as_tabulate (n : nat) (t : Tensor) :
  square n t -> t = tabulate n n (entry t).
Proof.
  intros [Hr Hs]. injection Hs as Hn Hm.
  rewrite (tensor_as_tabulate t Hr) at 1. now rewrite Hn, Hm.
Qed.

Lemma matmul_as_tabulate (a b : Tensor) :
  matmul_entries a b =
  tabulate (nrows a) (ncols b)
    (fun i j => sum_upto (ncols a) (fun k => entry a i k * entry b k j)).
Proof.
  unfold matmul_entries, tabulate, nrows. f_equal.
  rewrite (list_as_map_nth (rows a) []) at 1. rewrite map_map. reflexivity.
Qed.

Lemma scale_tabulate (c : R) (n m : nat) (f : nat -> nat -> R) :
  scale c (tabulate n m f) = tabulate n m (fun i j => c * f i j).
Proof.
  unfold scale, tabulate. cbn [rows ncols]. f_equal.
  rewrite map_map. apply map_ext. intros i. now rewrite map_map.
Qed.

Lemma seq_from (s n : nat) : seq s n = map (fun i => (s + i)%nat) (seq 0 n).
Proof.
  revert s. induction n as [|n IH]; intros s.
  - reflexivity.
  - cbn [seq map]. rewrite Nat.add_0_r. f_equal.
    rewrite IH, <- seq_shift, map_map.
    apply map_ext. intros i. lia.
Qed.

Lemma block_diag2_tabulate (n1 m1 n2 m2 : nat) (f g : nat -> nat -> R) :
  block_diag2 (tabulate n1 m1 f) (tabulate n2 m2 g) =
  tabulate (n1 + n2) (m1 + m2) (block_entry n1 m1 f g).
Proof.
  unfold block_diag2, tabulate. cbn [rows ncols]. f_equal.
  rewrite !map_map, (seq_app n1 n2), map_app. f_equal.
  - apply map_ext_in. intros i Hi. apply in_seq in Hi.
    rewrite (seq_app m1 m2), map_app. f_equal.
    + apply map_ext_in. intros j Hj. apply in_seq in Hj.
      unfold block_entry.
      destruct (Nat.ltb_spec i n1); [|lia].
      destruct (Nat.ltb_spec j m1); [reflexivity|lia].
    + replace (repeat 0 m2) with (map (fun _ : nat => 0) (seq (0 + m1) m2))
        by now rewrite map_const, length_seq.
      apply map_ext_in. intros j Hj. apply in_seq in Hj.
      unfold block_entry.
      destruct (Nat.ltb_spec i n1); [|lia].
      destruct (Nat.ltb_spec j m1); [lia|reflexivity].
  - rewrite (seq_from (0 + n1) n2), map_map.
    apply map_ext_in. intros i Hi. apply in_seq in Hi.
    rewrite (seq_app m1 m2), map_app. f_equal.
    + replace (repeat 0 m1) with (map (fun _ : nat => 0) (seq 0 m1))
        by now rewrite map_const, length_seq.
      apply map_ext_in. intros j Hj. apply in_seq in Hj.
      unfold block_entry.
      destruct (Nat.ltb_spec (0 + n1 + i) n1); [lia|].
      destruct (Nat.ltb_spec j m1); [reflexivity|lia].
    + rewrite (seq_from (0 + m1) m2), map_map.
      apply map_ext_in. intros j Hj. apply in_seq in Hj.
      unfold block_entry.
      destruct (Nat.ltb_spec (0 + n1 + i) n1); [lia|].
      destruct (Nat.ltb_spec (0 + m1 + j) m1); [lia|].
      f_equal; lia.
Qed.

Lemma block_diag2_square (n m : nat) (a b : Tensor) :
  square n a -> square m b ->
  block_diag2 a b =
    tabulate (n + m) (n + m) (block_entry n n (entry a) (entry b)) /\
  square (n + m) (block_diag2 a b).
Proof.
  intros Ha Hb.
  assert (H : block_diag2 a b =
              tabulate (n + m) (n + m) (block_entry n n (entry a) (entry b))).
  { rewrite (square_as_tabulate n a Ha) at 1.
    rewrite (square_as_tabulate m b Hb) at 1.
    apply block_diag2_tabulate. }
  split; [exact H|]. rewrite H. apply square_tabulate.
Qed.

Lemma square_dims (n : nat) (t : Tensor) :
  square n t -> nrows t = n /\ ncols t = n.
Proof. intros [_ H]. injection H as H1 H2. now split. Qed.

Lemma sum_upto_app (n m : nat) (f : nat -> R) :
  sum_upto (n + m) f = sum_upto n f + sum_upto m (fun k => f (n + k)%nat).
Proof.
  induction m as [|m IH].
  - rewrite Nat.add_0_r. simpl. ring.
  - rewrite Nat.add_succ_r. simpl. rewrite IH. ring.
Qed.

Lemma sum_upto_zero (n : nat) (f : nat -> R) :
  (forall k, (k < n)%nat -> f k = 0) -> sum_upto n f = 0.
Proof.
  induction n as [|n IH]; intros H; simpl.
  - reflexivity.
  - rewrite IH by (intros; apply H; lia). rewrite H by lia. ring.
Qed.

Lemma identity_block (n m : nat) :
  identity (n + m) = block_diag2 (identity n) (identity m).
Proof.
  unfold identity. rewrite block_diag2_tabulate.
  apply tabulate_ext. intros i j Hi Hj. block_cases.
  - reflexivity.
  - destruct (Nat.eqb_spec i j); [lia | reflexivity].
  - destruct (Nat.eqb_spec i j); [lia | reflexivity].
  - destruct (Nat.eqb_spec i j), (Nat.eqb_spec (i - n) (j - n));
      try reflexivity; lia.
Qed.

Lemma square_identity (n : nat) : square n (identity n).
Proof. apply square_tabulate. Qed.

Lemma square_matmul (n : nat) (a b : Tensor) :
  square n a -> square n b -> square n (matmul_entries a b).
Proof.
  intros Ha Hb. rewrite matmul_as_tabulate.
  destruct (square_dims n a Ha) as [-> _].
  destruct (square_dims n b Hb) as [_ ->]. apply square_tabulate.
Qed.

Lemma square_scale (n : nat) (c : R) (a : Tensor) :
  square n a -> square n (scale c a).
Proof.
  intros Ha. rewrite (square_as_tabulate n a Ha), scale_tabulate.
  apply square_tabulate.
Qed.

Lemma square_tensor_add (n : nat) (a b : Tensor) :
  square n a -> square n (tensor_add a b).
Proof.
  intros Ha. unfold tensor_add.
  destruct (square_dims n a Ha) as [-> ->]. apply square_tabulate.
Qed.

Lemma matmul_block (n m : nat) (a b c d : Tensor) :
  square n a -> square m b -> square n c -> square m d ->
  matmul_entries (block_diag2 a b) (block_diag2 c d) =
  block_diag2 (matmul_entries a c) (matmul_entries b d).
Proof.
  intros Ha Hb Hc Hd.
  destruct (block_diag2_square n m a b Ha Hb) as [Hab Sab].
  destruct (block_diag2_square n m c d Hc Hd) as [Hcd Scd].
  rewrite !matmul_as_tabulate.
  destruct (square_dims _ _ Sab) as [-> ->].
  destruct (square_dims _ _ Scd) as [_ ->].
  destruct (square_dims _ _ Ha) as [-> ->].
  destruct (square_dims _ _ Hb) as [-> ->].
  destruct (square_dims _ _ Hc) as [_ ->].
  destruct (square_dims _ _ Hd) as [_ ->].
  rewrite block_diag2_tabulate, Hab, Hcd.
  apply tabulate_ext. intros i j Hi Hj.
  rewrite (sum_upto_ext (n + m) _
             (fun k => block_entry n n (entry a) (entry b) i k *
                       block_entry n n (entry c) (entry d) k j))
    by (intros k Hk; now rewrite !entry_tabulate).
  rewrite sum_upto_app.
  unfold block_entry at 5.
  destruct (Nat.ltb_spec i n) as [Hin|Hin], (Nat.ltb_spec j n) as [Hjn|Hjn].
  - rewrite (sum_upto_zero m) by (intros k Hk; block_cases; ring).
    rewrite Rplus_0_r. apply sum_upto_ext. intros k Hk. now block_cases.
  - rewrite (sum_upto_zero m) by (intros k Hk; block_cases; ring).
    rewrite (sum_upto_zero n) by (intros k Hk; block_cases; ring).
    ring.
  - rewrite (sum_upto_zero m) by (intros k Hk; block_cases; ring).
    rewrite (sum_upto_zero n) by (intros k Hk; block_cases; ring).
    ring.
  - rewrite (sum_upto_zero n) by (intros k Hk; block_cases; ring).
    rewrite Rplus_0_l. apply sum_upto_ext. intros k Hk. block_cases.
    now replace (n + k - n)%nat with k by lia.
Qed.

Lemma tensor_add_block (n m : nat) (a b c d : Tensor) :
  square n a -> square m b -> square n c -> square m d ->
  tensor_add (block_diag2 a b) (block_diag2 c d) =
  block_diag2 (tensor_add a c) (tensor_add b d).
Proof.
  intros Ha Hb Hc Hd.
  destruct (block_diag2_square n m a b Ha Hb) as [Hab Sab].
  destruct (block_diag2_square n m c d Hc Hd) as [Hcd Scd].
  unfold tensor_add.
  destruct (square_dims _ _ Sab) as [-> ->].
  destruct (square_dims _ _ Ha) as [-> ->].
  destruct (square_dims _ _ Hb) as [-> ->].
  rewrite block_diag2_tabulate, Hab, Hcd.
  apply tabulate_ext. intros i j Hi Hj.
  rewrite !entry_tabulate by assumption.
  block_cases; try reflexivity; ring.
Qed.

Lemma scale_block (n m : nat) (c : R) (a b : Tensor) :
  square n a -> square m b ->
  scale c (block_diag2 a b) = block_diag2 (scale c a) (scale c b).
Proof.
  intros Ha Hb.
  destruct (block_diag2_square n m a b Ha Hb) as [Hab _].
  rewrite Hab, scale_tabulate.
  replace (scale c a) with (scale c (tabulate n n (entry a)))
    by now rewrite <- square_as_tabulate.
  replace (scale c b) with (scale c (tabulate m m (entry b)))
    by now rewrite <- square_as_tabulate.
  rewrite !scale_tabulate, block_diag2_tabulate.
  apply tabulate_ext. intros i j Hi Hj.
  block_cases; try reflexivity; ring.
Qed.

Lemma square_matrix_power (n : nat) (a : Tensor) (k : nat) :
  square n a -> square n (matrix_power a k).
Proof.
  intros Ha. induction k as [|k IH]; cbn [matrix_power].
  - destruct (square_dims n a Ha) as [_ ->]. apply square_identity.
  - now apply square_matmul.
Qed.

Lemma square_exp_partial_sum (n : nat) (a : Tensor) (N : nat) :
  square n a -> square n (exp_partial_sum a N).
Proof.
  intros Ha. induction N as [|N IH]; cbn [exp_partial_sum].
  - destruct (square_dims n a Ha) as [_ ->]. apply square_identity.
  - now apply square_tensor_add.
Qed.

Lemma matrix_power_block (n m : nat) (a b : Tensor) (k : nat) :
  square n a -> square m b ->
  matrix_power (block_diag2 a b) k =
  block_diag2 (matrix_power a k) (matrix_power b k).
Proof.
  intros Ha Hb. induction k as [|k IH]; cbn [matrix_power].
  - cbn [block_diag2 ncols]. apply identity_block.
  - rewrite IH. apply (matmul_block n m); auto using square_matrix_power.
Qed.

Lemma exp_partial_sum_block (n m : nat) (a b : Tensor) (N : nat) :
  square n a -> square m b ->
  exp_partial_sum (block_diag2 a b) N =
  block_diag2 (exp_partial_sum a N) (exp_partial_sum b N).
Proof.
  intros Ha Hb. induction N as [|N IH]; cbn [exp_partial_sum].
  - cbn [block_diag2 ncols]. apply identity_block.
  - rewrite IH, (matrix_power_block n m) by assumption.
    rewrite (scale_block n m) by auto using square_matrix_power.
    apply (tensor_add_block n m);
      auto using square_exp_partial_sum, square_scale, square_matrix_power.
Qed.

(** ** Limits *)

Lemma real_limit_unique (u : nat -> R) (l : R) :
  Un_cv u l -> real_limit u = l.
Proof.
  intros H. unfold real_limit.
  apply (UL_sequence u); [|exact H].
  apply epsilon_spec. now exists l.
Qed.

Lemma Un_cv_const (c : R) : Un_cv (fun _ => c) c.
Proof.
  intros eps Heps. exists O. intros n _.
  unfold R_dist. now rewrite Rminus_diag, Rabs_R0.
Qed.

Lemma real_limit_const (c : R) : real_limit (fun _ => c) = c.
Proof. apply real_limit_unique, Un_cv_const. Qed.

(** ** The exponential of a block-diagonal matrix *)

Lemma square_matrix_exp_entries (n : nat) (a : Tensor) :
  square n a -> square n (matrix_exp_entries a).
Proof.
  intros Ha. unfold matrix_exp_entries.
  destruct (square_dims n a Ha) as [-> ->]. apply square_tabulate.
Qed.

Lemma matrix_exp_block (n m : nat) (a b : Tensor) :
  square n a -> square m b ->
  matrix_exp_entries (block_diag2 a b) =
  block_diag2 (matrix_exp_entries a) (matrix_exp_entries b).
Proof.
  intros Ha Hb.
  destruct (block_diag2_square n m a b Ha Hb) as [_ Sab].
  unfold matrix_exp_entries.
  destruct (square_dims _ _ Sab) as [-> ->].
  destruct (square_dims _ _ Ha) as [-> ->].
  destruct (square_dims _ _ Hb) as [-> ->].
  rewrite block_diag2_tabulate.
  apply tabulate_ext. intros i j Hi Hj.
  replace (fun N => entry (exp_partial_sum (block_diag2 a b) N) i j)
    with (fun N => block_entry n n (entry (exp_partial_sum a N))
                     (entry (exp_partial_sum b N)) i j).
  - unfold block_entry.
    destruct (Nat.ltb i n), (Nat.ltb j n);
      try reflexivity; apply real_limit_const.
  - apply functional_extensionality. intros N.
    rewrite (exp_partial_sum_block n m) by assumption.
    destruct (block_diag2_square n m (exp_partial_sum a N)
                (exp_partial_sum b N)) as [-> _];
      auto using square_exp_partial_sum.
    now rewrite entry_tabulate.
Qed.

Lemma is_square_block_diag (ts : list Tensor) :
  Forall is_square ts -> is_square (block_diag ts).
Proof.
  induction 1 as [|t ts Ht Hts IH].
  - split; [constructor | reflexivity].
  - rewrite block_diag_cons.
    apply (block_diag2_square (ncols t) (ncols (block_diag ts)));
      assumption.
Qed.

Lemma matrix_exp_block_diag (ts : list Tensor) :
  Forall is_square ts ->
  matrix_exp_entries (block_diag ts) = block_diag (map matrix_exp_entries ts).
Proof.
  induction 1 as [|t ts Ht Hts IH].
  - reflexivity.
  - cbn [map]. rewrite !block_diag_cons, <- IH.
    apply (matrix_exp_block (ncols t) (ncols (block_diag ts)));
      [exact Ht | now apply is_square_block_diag].
Qed.

Lemma scale_block_diag (c : R) (ts : list Tensor) :
  Forall is_square ts ->
  scale c (block_diag ts) = block_diag (map (scale c) ts).
Proof.
  induction 1 as [|t ts Ht Hts IH].
  - reflexivity.
  - cbn [map]. rewrite !block_diag_cons, <- IH.
    apply (scale_block (ncols t) (ncols (block_diag ts)));
      [exact Ht | now apply is_square_block_diag].
Qed.

(** ** The exponential of a zero block *)

Lemma repeat_as_map {A : Type} (x : A) (n : nat) :
  repeat x n = map (fun _ => x) (seq 0 n).
Proof. now rewrite map_const, length_seq. Qed.

Lemma zeros_tabulate (n m : nat) : zeros n m = tabulate n m (fun _ _ => 0).
Proof.
  unfold zeros, tabulate. f_equal.
  now rewrite (repeat_as_map _ n), (repeat_as_map 0 m).
Qed.

Lemma square_zeros (n : nat) : square n (zeros n n).
Proof. rewrite zeros_tabulate. apply square_tabulate. Qed.

Lemma scale_zeros (c : R) (n : nat) : scale c (zeros n n) = zeros n n.
Proof.
  rewrite zeros_tabulate, scale_tabulate.
  apply tabulate_ext. intros. ring.
Qed.

Lemma matmul_zeros (n : nat) (a : Tensor) :
  square n a -> matmul_entries a (zeros n n) = zeros n n.
Proof.
  intros Ha. rewrite matmul_as_tabulate.
  destruct (square_dims n a Ha) as [-> ->].
  rewrite zeros_tabulate. cbn [ncols tabulate].
  apply tabulate_ext. intros i j Hi Hj.
  apply sum_upto_zero. intros k Hk.
  change (mkTensor n (map (fun i0 => map (fun _ => 0) (seq 0 n)) (seq 0 n)))
    with (tabulate n n (fun _ _ => 0)).
  rewrite entry_tabulate by assumption. ring.
Qed.

Lemma matrix_power_zeros (n k : nat) :
  matrix_power (zeros n n) (S k) = zeros n n.
Proof.
  cbn [matrix_power]. apply matmul_zeros.
  apply square_matrix_power, square_zeros.
Qed.

Lemma exp_partial_sum_zeros (n N : nat) :
  exp_partial_sum (zeros n n) N = identity n.
Proof.
  induction N as [|N IH].
  - reflexivity.
  - cbn [exp_partial_sum]. rewrite IH, matrix_power_zeros, scale_zeros.
    unfold tensor_add.
    destruct (square_dims n _ (square_identity n)) as [-> ->].
    transitivity (tabulate n n (entry (identity n)));
      [|symmetry; apply square_as_tabulate, square_identity].
    apply tabulate_ext. intros i j Hi Hj.
    rewrite zeros_tabulate, (entry_tabulate n n (fun _ _ => 0))
      by assumption.
    ring.
Qed.

Lemma matrix_exp_zeros (n : nat) : matrix_exp_entries (zeros n n) = identity n.
Proof.
  unfold matrix_exp_entries.
  destruct (square_dims n _ (square_zeros n)) as [-> ->].
  unfold identity. apply tabulate_ext. intros i j Hi Hj.
  replace (fun N => entry (exp_partial_sum (zeros n n) N) i j)
    with (fun _ : nat => if Nat.eqb i j then 1 else 0).
  - apply real_limit_const.
  - apply functional_extensionality. intros N.
    rewrite exp_partial_sum_zeros. unfold identity.
    now rewrite entry_tabulate.
Qed.

(** ** The exponential of a 2 x 2 antisymmetric block *)

Lemma square_rot_like (p q : R) : square 2 (rot_like p q).
Proof. split; [repeat constructor | reflexivity]. Qed.

Lemma rot_like_eq (x1 x2 x3 x4 p q : R) :
  x1 = p -> x2 = q -> x3 = - q -> x4 = p ->
  mkTensor 2 [[x1; x2]; [x3; x4]] = rot_like p q.
Proof. intros -> -> -> ->. reflexivity. Qed.

Lemma rot_like_mul_antisym (p q a : R) :
  matmul_entries (rot_like p q) (antisym a) = rot_like (- (q * a)) (p * a).
Proof.
  unfold matmul_entries, antisym, entry. cbn.
  apply rot_like_eq; ring.
Qed.

Lemma rot_like_add_scale (u v c p q : R) :
  tensor_add (rot_like u v) (scale c (rot_like p q)) =
  rot_like (u + c * p) (v + c * q).
Proof.
  unfold tensor_add, tabulate, scale, entry. cbn.
  apply rot_like_eq; ring.
Qed.

Lemma identity_2 : identity 2 = rot_like 1 0.
Proof.
  unfold identity, tabulate. cbn.
  apply rot_like_eq; ring.
Qed.

Lemma matrix_power_antisym (a : R) (k : nat) :
  matrix_power (antisym a) k =
  rot_like (fst (antisym_pow a k)) (snd (antisym_pow a k)).
Proof.
  induction k as [|k IH].
  - exact identity_2.
  - cbn [matrix_power antisym_pow]. rewrite IH.
    destruct (antisym_pow a k) as [p q]. cbn [fst snd].
    apply rot_like_mul_antisym.
Qed.

Lemma exp_partial_sum_antisym (a : R) (N : nat) :
  exp_partial_sum (antisym a) N =
  rot_like (fst (antisym_sum a N)) (snd (antisym_sum a N)).
Proof.
  induction N as [|N IH].
  - exact identity_2.
  - cbn [exp_partial_sum antisym_sum].
    rewrite IH, matrix_power_antisym.
    destruct (antisym_sum a N) as [u v].
    destruct (antisym_pow a (S N)) as [p q]. cbn [fst snd].
    apply rot_like_add_scale.
Qed.

Lemma antisym_pow_S (a : R) (k : nat) :
  antisym_pow a (S k) =
  (- (snd (antisym_pow a k) * a), fst (antisym_pow a k) * a).
Proof. cbn [antisym_pow]. now destruct (antisym_pow a k). Qed.

Lemma antisym_sum_S (a : R) (N : nat) :
  antisym_sum a (S N) =
  (fst (antisym_sum a N) + / INR (fact (S N)) * fst (antisym_pow a (S N)),
   snd (antisym_sum a N) + / INR (fact (S N)) * snd (antisym_pow a (S N))).
Proof.
  cbn [antisym_sum].
  now destruct (antisym_sum a N), (antisym_pow a (S N)).
Qed.

Lemma antisym_pow_even (a : R) (M : nat) :
  antisym_pow a (2 * M) = ((-1) ^ M * (a * a) ^ M, 0).
Proof.
  induction M as [|M IH].
  - cbn. f_equal. ring.
  - replace (2 * S M)%nat with (S (S (2 * M))) by lia.
    rewrite !antisym_pow_S, IH. cbn [fst snd]. f_equal.
    + simpl. ring.
    + ring.
Qed.

Lemma antisym_pow_odd (a : R) (M : nat) :
  antisym_pow a (S (2 * M)) = (0, (-1) ^ M * (a * a) ^ M * a).
Proof.
  rewrite antisym_pow_S, antisym_pow_even. cbn [fst snd]. f_equal. ring.
Qed.

Lemma antisym_sum_odd (a : R) (M : nat) :
  antisym_sum a (S (2 * M)) =
  (sum_f_R0 (fun i => cos_n i * (a * a) ^ i) M,
   a * sum_f_R0 (fun i => sin_n i * (a * a) ^ i) M).
Proof.
  induction M as [|M IH].
  - cbn. unfold cos_n, sin_n. cbn. f_equal; field.
  - replace (2 * S M)%nat with (S (S (2 * M))) by lia.
    rewrite (antisym_sum_S a (S (S (2 * M)))), (antisym_sum_S a (S (2 * M))).
    rewrite IH. cbn [fst snd].
    replace (S (S (S (2 * M)))) with (S (2 * S M)) by lia.
    rewrite antisym_pow_odd.
    replace (S (S (2 * M))) with (2 * S M)%nat by lia.
    rewrite antisym_pow_even. cbn [fst snd sum_f_R0].
    unfold cos_n, sin_n.
    replace (2 * S M + 1)%nat with (S (2 * S M)) by lia.
    pose proof (INR_fact_neq_0 (2 * S M)).
    pose proof (INR_fact_neq_0 (S (2 * S M))).
    f_equal; field; auto.
Qed.

Lemma antisym_sum_even (a : R) (M : nat) :
  antisym_sum a (S (S (2 * M))) =
  (sum_f_R0 (fun i => cos_n i * (a * a) ^ i) (S M),
   a * sum_f_R0 (fun i => sin_n i * (a * a) ^ i) M).
Proof.
  rewrite antisym_sum_S, antisym_sum_odd. cbn [fst snd].
  replace (S (S (2 * M))) with (2 * S M)%nat by lia.
  rewrite antisym_pow_even. cbn [fst snd sum_f_R0].
  unfold cos_n.
  pose proof (INR_fact_neq_0 (2 * S M)).
  f_equal; field; auto.
Qed.

(** A sequence that follows another one at half the pace has its limit. *)
Lemma Un_cv_half_pace (w u : nat -> R) (l : R) :
  Un_cv w l ->
  (forall N, (1 <= N)%nat -> exists M, (N <= 2 * M + 2)%nat /\ u N = w M) ->
  Un_cv u l.
Proof.
  intros Hw H eps Heps. destruct (Hw eps Heps) as [N0 HN0].
  exists (2 * N0 + 2)%nat. intros N HN.
  destruct (H N) as [M [HM ->]]; [lia|].
  apply HN0. lia.
Qed.

Lemma parity_cases (N : nat) :
  (1 <= N)%nat ->
  exists M, N = S (2 * M) \/ N = S (S (2 * M)).
Proof.
  intros H. exists ((N - 1) / 2)%nat.
  pose proof (Nat.div_mod_eq (N - 1) 2) as E.
  pose proof (Nat.mod_upper_bound (N - 1) 2) as B.
  lia.
Qed.

Lemma cos_series (a : R) :
  Un_cv (sum_f_R0 (fun i => cos_n i * (a * a) ^ i)) (cos a).
Proof.
  unfold cos. destruct (exist_cos (Rsqr a)) as [l Hl]. exact Hl.
Qed.

Lemma sin_series (a : R) :
  Un_cv (fun M => a * sum_f_R0 (fun i => sin_n i * (a * a) ^ i) M) (sin a).
Proof.
  unfold sin. destruct (exist_sin (Rsqr a)) as [l Hl].
  apply (CV_mult (fun _ => a)); [apply Un_cv_const | exact Hl].
Qed.

Lemma antisym_sum_fst_cv (a : R) :
  Un_cv (fun N => fst (antisym_sum a N)) (cos a).
Proof.
  apply (Un_cv_half_pace _ _ _ (cos_series a)). intros N HN.
  destruct (parity_cases N HN) as [M [-> | ->]].
  - exists M. split; [lia|]. now rewrite antisym_sum_odd.
  - exists (S M). split; [lia|]. now rewrite antisym_sum_even.
Qed.

Lemma antisym_sum_snd_cv (a : R) :
  Un_cv (fun N => snd (antisym_sum a N)) (sin a).
Proof.
  apply (Un_cv_half_pace _ _ _ (sin_series a)). intros N HN.
  destruct (parity_cases N HN) as [M [-> | ->]].
  - exists M. split; [lia|]. now rewrite antisym_sum_odd.
  - exists M. split; [lia|]. now rewrite antisym_sum_even.
Qed.

Lemma matrix_exp_antisym (a : R) :
  matrix_exp_entries (antisym a) = rotation a.
Proof.
  unfold matrix_exp_entries.
  replace (fun i j => real_limit
             (fun N => entry (exp_partial_sum (antisym a) N) i j))
    with (fun i j => real_limit
             (fun N => entry (rot_like (fst (antisym_sum a N))
                                       (snd (antisym_sum a N))) i j)).
  2:{ apply functional_extensionality. intros i.
      apply functional_extensionality. intros j. f_equal.
      apply functional_extensionality. intros N.
      now rewrite exp_partial_sum_antisym. }
  unfold tabulate, entry. cbn.
  apply rot_like_eq; apply real_limit_unique.
  - apply antisym_sum_fst_cv.
  - apply antisym_sum_snd_cv.
  - apply (CV_opp _ _ (antisym_sum_snd_cv a)).
  - apply antisym_sum_fst_cv.
Qed.

(** ** The SO2 generator is made of rotations *)

Lemma so2_lie_generator_frequencies :
  so2_lie_generator =
  block_diag (zeros 37 37 :: map antisym so2_frequencies).
Proof. reflexivity. Qed.

Lemma scale_antisym (c a : R) : scale c (antisym a) = antisym (c * a).
Proof. unfold scale, antisym. cbn. apply rot_like_eq; ring. Qed.

Lemma is_square_zeros (n : nat) : is_square (zeros n n).
Proof. apply square_zeros. Qed.

Lemma is_square_rot_like (p q : R) : is_square (rot_like p q).
Proof. apply square_rot_like. Qed.

Lemma Forall_map_intro {A B : Type} (P : B -> Prop) (f : A -> B)
    (l : list A) :
  (forall a, P (f a)) -> Forall P (map f l).
Proof. intros H. apply Forall_map, Forall_forall. auto. Qed.

Lemma matrix_exp_so2 (c : R) :
  matrix_exp_entries (scale c so2_lie_generator) = so2_rotations c.
Proof.
  rewrite so2_lie_generator_frequencies.
  rewrite scale_block_diag
    by (constructor;
        [apply is_square_zeros
        | apply Forall_map_intro; intros; apply is_square_rot_like]).
  cbn [map]. rewrite scale_zeros, map_map.
  rewrite (map_ext _ (fun f => antisym (c * f)))
    by (intros; apply scale_antisym).
  rewrite matrix_exp_block_diag
    by (constructor;
        [apply is_square_zeros
        | apply Forall_map_intro; intros; apply is_square_rot_like]).
  cbn [map]. rewrite matrix_exp_zeros, map_map.
  rewrite (map_ext _ (fun f => rotation (c * f)))
    by (intros; apply matrix_exp_antisym).
  reflexivity.
Qed.

Lemma from_pretrained_so2_rotations (k : Z) :
  int_to_float_overflows k = false ->
  k <> 0%Z ->
  from_pretrained "SO2" k =
  Ok (mkSteerer (so2_rotations (2 * 3.14159 / IZR k)) false).
Proof.
  intros Ho Hk.
  destruct (from_pretrained_so2 k Ho Hk) as [g [Hg [Hf _]]].
  rewrite Hf. do 2 f_equal.
  destruct (matrix_exp_square
              (scale (2 * 3.14159 / IZR k) so2_lie_generator) 253)
    as [Hg' _].
  { rewrite scale_shape. exact so2_lie_generator_shape. }
  rewrite Hg' in Hg. injection Hg as <-. apply matrix_exp_so2.
Qed.

(** ** The action of the SO2 generator on a row *)

Lemma act_block_diag2 (a b : Tensor) (r1 r2 : list R) :
  rectangular a ->
  length r1 = ncols a ->
  act (block_diag2 a b) (r1 ++ r2) = act a r1 ++ act b r2.
Proof. apply linear_rows_block_diag2. Qed.

Lemma act_identity (n : nat) (r : list R) :
  length r = n -> act (identity n) r = r.
Proof.
  revert r. induction n as [|n IH]; intros r H.
  - destruct r; [reflexivity | discriminate].
  - destruct r as [|x r]; [discriminate|].
    change (S n) with (1 + n)%nat. rewrite identity_block.
    change (x :: r) with ([x] ++ r).
    rewrite act_block_diag2
      by (apply tabulate_rectangular || reflexivity).
    rewrite IH by (simpl in H; lia).
    unfold act. cbn. f_equal. ring.
Qed.














Lemma apply_times_rows (self : DiscreteSteerer) (X : Tensor) (k : nat) :
  ncols X = ncols (generator self) ->
  nrows (generator self) = ncols (generator self) ->
  apply_times self k X =
  Ok (mkTensor (ncols X) (map (Nat.iter k (act (generator self))) (rows X))).
Proof.
  intros HX HG. induction k as [|k IH].
  - cbn [apply_times]. change (Nat.iter 0 (act (generator self)))
      with (fun r : list R => r).
    now rewrite map_id, tensor_eta.
  - cbn [apply_times]. rewrite IH. cbn [bind].
    unfold forward, linear. cbn [ncols rows].
    rewrite HX, Nat.eqb_refl, HG, map_map. reflexivity.
Qed.

(** ** The constant 3.14159 and a full turn *)











Lemma so2_rotations_shape (c : R) : shape (so2_rotations c) = (253, 253)%nat.
Proof.
  unfold so2_rotations.
  assert (H : is_square
                (block_diag (identity so2_zero_block_size ::
                             map (fun f => rotation (c * f)) so2_frequencies))).
  { apply is_square_block_diag. constructor.
    - apply square_identity.
    - apply Forall_map_intro. intros. apply is_square_rot_like. }
  destruct H as [_ H]. rewrite H. f_equal.
  all: unfold block_diag; clear H.
  all: change so2_frequencies
         with (repeat 1 18 ++ repeat 2 18 ++ repeat 3 18 ++
               repeat 4 18 ++ repeat 5 18 ++ repeat 6 18).
  all: reflexivity.
Qed.



(** ** The SO2 generator in the code

    The zero block has size 37 and not 40, which leaves the generator three
    rows and columns short of the descriptor dimension. *)

(** C1, as the code has it: for a positive order k that Python converts to
    a float, the SO2 generator is the matrix exponential of
    [2 * 3.14159 / k] times the block-diagonal matrix made of a zero block
    of size 256 - (12 * 256) // 14 = 37 and of 18 copies of
    [[0, j], [-j, 0]] for each j from 1 to 6.  That matrix, and with it the
    generator, is 253 x 253 and not 256 x 256. *)
Theorem so2_generator_is_253_square (p : positive) :
  int_to_float_overflows (Z.pos p) = false ->
  so2_zero_block_size = 37%nat /\
  so2_lie_generator =
    block_diag (zeros 37 37 ::
                repeat (so2_block 1) 18 ++ repeat (so2_block 2) 18 ++
                repeat (so2_block 3) 18 ++ repeat (so2_block 4) 18 ++
                repeat (so2_block 5) 18 ++ repeat (so2_block 6) 18) /\
  shape so2_lie_generator = (253, 253)%nat /\
  exists g,
    matrix_exp (scale (2 * 3.14159 / IZR (Z.pos p)) so2_lie_generator) = Ok g /\
    from_pretrained "SO2" (Z.pos p) = Ok (mkSteerer g false) /\
    shape g = (253, 253)%nat /\
    shape g <> (256, 256)%nat.
Proof.
  intros Ho.
  split; [reflexivity|]. split; [exact so2_lie_generator_blocks|].
  split; [exact so2_lie_generator_shape|].
  destruct (from_pretrained_so2 (Z.pos p) Ho) as [g [Hg [Hf Hs]]];
    [discriminate|].
  exists g. repeat split; try assumption.
  rewrite Hs. discriminate.
Qed.

Lemma so2_generator_is_253_square_witness :
  int_to_float_overflows 8 = false /\
  so2_zero_block_size = 37%nat /\
  so2_lie_generator =
    block_diag (zeros 37 37 ::
                repeat (so2_block 1) 18 ++ repeat (so2_block 2) 18 ++
                repeat (so2_block 3) 18 ++ repeat (so2_block 4) 18 ++
                repeat (so2_block 5) 18 ++ repeat (so2_block 6) 18) /\
  shape so2_lie_generator = (253, 253)%nat /\
  exists g,
    matrix_exp (scale (2 * 3.14159 / IZR 8) so2_lie_generator) = Ok g /\
    from_pretrained "SO2" 8 = Ok (mkSteerer g false) /\
    shape g = (253, 253)%nat /\
    shape g <> (256, 256)%nat.
Proof.
  split; [reflexivity|].
  apply (so2_generator_is_253_square 8). reflexivity.
Defined.

(** C6, as the code has it: the steerer of [from_pretrained "SO2" 8] has a
    253 x 253 generator, so that steering a batch of 256-dimensional
    descriptors by it, eight times or once, raises the shape error. *)
Theorem so2_steerer_rejects_descriptors (X : Tensor) (b : bool) :
  ncols X = 256%nat ->
  exists s,
    from_pretrained "SO2" 8 = Ok s /\
    shape (generator s) = (253, 253)%nat /\
    forward s X = Raise ShapeError /\
    steer_descriptions s X 8 b = Raise ShapeError.
Proof.
  intros Hc.
  destruct (from_pretrained_so2 8) as [g [_ [Hf Hs]]];
    [reflexivity | discriminate |].
  exists (mkSteerer g false). split; [exact Hf|]. split; [exact Hs|].
  cbn [generator] in Hs. injection Hs as _ Hg.
  assert (Hn : ncols X <> ncols (generator (mkSteerer g false)))
    by (cbn [generator]; lia).
  split; [now apply forward_mismatch | apply steer_mismatch; [exact Hn | lia]].
Qed.

Lemma so2_steerer_rejects_descriptors_witness :
  ncols (zeros 1 256) = 256%nat /\
  exists s,
    from_pretrained "SO2" 8 = Ok s /\
    shape (generator s) = (253, 253)%nat /\
    forward s (zeros 1 256) = Raise ShapeError /\
    steer_descriptions s (zeros 1 256) 8 false = Raise ShapeError.
Proof.
  split; [reflexivity|].
  apply (so2_steerer_rejects_descriptors (zeros 1 256) false eq_refl).
Defined.

Lemma so2_rotations_blocks (c : R) :
  so2_rotations c =
  block_diag (identity 37 ::
              repeat (rotation (c * 1)) 18 ++ repeat (rotation (c * 2)) 18 ++
              repeat (rotation (c * 3)) 18 ++ repeat (rotation (c * 4)) 18 ++
              repeat (rotation (c * 5)) 18 ++ repeat (rotation (c * 6)) 18).
Proof. reflexivity. Qed.

(** X1: for a positive order k that Python converts to a float, the
    generator of [from_pretrained "SO2" k] is the block-diagonal matrix of
    the 37 x 37 identity and, for each j from 1 to 6, 18 copies of the
    rotation by [2 * 3.14159 / k * j]; it is 253 x 253 and the steerer is in
    inference mode. *)
Theorem so2_generator_rotations (p : positive) :
  int_to_float_overflows (Z.pos p) = false ->
  from_pretrained "SO2" (Z.pos p) =
    Ok (mkSteerer (so2_rotations (2 * 3.14159 / IZR (Z.pos p))) false) /\
  matrix_exp (scale (2 * 3.14159 / IZR (Z.pos p)) so2_lie_generator) =
    Ok (so2_rotations (2 * 3.14159 / IZR (Z.pos p))) /\
  (forall c,
     so2_rotations c =
     block_diag (identity 37 ::
                 repeat (rotation (c * 1)) 18 ++ repeat (rotation (c * 2)) 18 ++
                 repeat (rotation (c * 3)) 18 ++ repeat (rotation (c * 4)) 18 ++
                 repeat (rotation (c * 5)) 18 ++ repeat (rotation (c * 6)) 18) /\
     shape (so2_rotations c) = (253, 253)%nat) /\
  (forall a, rotation a = tensor [[cos a; sin a]; [- sin a; cos a]]).
Proof.
  intros Ho.
  split; [apply from_pretrained_so2_rotations; [exact Ho | discriminate]|].
  split.
  - destruct (matrix_exp_square
                (scale (2 * 3.14159 / IZR (Z.pos p)) so2_lie_generator) 253)
      as [Hg _].
    { rewrite scale_shape. exact so2_lie_generator_shape. }
    rewrite Hg. f_equal. apply matrix_exp_so2.
  - split; [|reflexivity].
    intros c. split; [apply so2_rotations_blocks | apply so2_rotations_shape].
Qed.

Lemma so2_generator_rotations_witness :
  int_to_float_overflows 8 = false /\
  from_pretrained "SO2" 8 =
    Ok (mkSteerer (so2_rotations (2 * 3.14159 / IZR 8)) false) /\
  matrix_exp (scale (2 * 3.14159 / IZR 8) so2_lie_generator) =
    Ok (so2_rotations (2 * 3.14159 / IZR 8)) /\
  (forall c,
     so2_rotations c =
     block_diag (identity 37 ::
                 repeat (rotation (c * 1)) 18 ++ repeat (rotation (c * 2)) 18 ++
                 repeat (rotation (c * 3)) 18 ++ repeat (rotation (c * 4)) 18 ++
                 repeat (rotation (c * 5)) 18 ++ repeat (rotation (c * 6)) 18) /\
     shape (so2_rotations c) = (253, 253)%nat) /\
  (forall a, rotation a = tensor [[cos a; sin a]; [- sin a; cos a]]).
Proof.
  split; [reflexivity|].
  apply (so2_generator_rotations 8). reflexivity.
Defined.




(** ** Further properties of the module *)

(** X4: every steerer that [from_pretrained] returns is in inference mode. *)
Theorem from_pretrained_eval_mode (generator_type : string)
    (steerer_order : Z) (s : DiscreteSteerer) :
  from_pretrained generator_type steerer_order = Ok s -> training s = false.
Proof.
  unfold from_pretrained.
  destruct (String.eqb generator_type "C4").
  - intros H. injection H as <-. reflexivity.
  - destruct (String.eqb generator_type "SO2"); [|discriminate].
    destruct (int_to_float_overflows steerer_order); [discriminate|].
    destruct (Z.eqb steerer_order 0); [discriminate|].
    destruct (matrix_exp _) as [g|e]; [|discriminate].
    intros H. injection H as <-. reflexivity.
Qed.

Lemma from_pretrained_eval_mode_witness :
  from_pretrained "C4" 8 = Ok (mkSteerer c4_generator false) /\
  training (mkSteerer c4_generator false) = false.
Proof.
  split; [reflexivity|].
  apply (from_pretrained_eval_mode "C4" 8 (mkSteerer c4_generator false)).
  reflexivity.
Defined.

(** X5: a power that is zero or negative takes no steering step:
    [range(steerer_power)] is empty. *)
Theorem steer_nonpositive_power (self : DiscreteSteerer) (X : Tensor) (k : Z)
    (b : bool) :
  (k <= 0)%Z ->
  steer_descriptions self X k b = Ok (if b then normalize X else X).
Proof.
  intros Hk. rewrite steer_unfold.
  replace (Z.to_nat k) with O by lia. reflexivity.
Qed.

Lemma steer_nonpositive_power_witness :
  (-3 <= 0)%Z /\
  steer_descriptions (init c4_block) (tensor [[1; 2; 3]]) (-3) false =
    Ok (tensor [[1; 2; 3]]).
Proof.
  split; [lia|].
  apply (steer_nonpositive_power (init c4_block) (tensor [[1; 2; 3]]) (-3)
           false).
  lia.
Defined.




(** X7: when the width of the batch is the number of columns of the generator,
    the forward pass returns a batch with as many rows as the input and as
    many columns as the generator has rows. *)
Theorem forward_shape (self : DiscreteSteerer) (X : Tensor) :
  ncols X = ncols (generator self) ->
  exists Y,
    forward self X = Ok Y /\
    shape Y = (nrows X, nrows (generator self)) /\
    rectangular Y.
Proof.
  intros H. unfold forward, linear. rewrite H, Nat.eqb_refl.
  eexists. split; [reflexivity|]. split.
  - unfold shape, nrows. cbn [rows ncols]. now rewrite length_map.
  - unfold rectangular. cbn [rows ncols].
    apply Forall_map_intro. intros r. now rewrite length_map.
Qed.

Lemma forward_shape_witness :
  ncols (tensor [[1; 2; 3; 4]]) = ncols (generator (init c4_block)) /\
  exists Y,
    forward (init c4_block) (tensor [[1; 2; 3; 4]]) = Ok Y /\
    shape Y = (nrows (tensor [[1; 2; 3; 4]]),
               nrows (generator (init c4_block))) /\
    rectangular Y.
Proof.
  split; [reflexivity|].
  apply (forward_shape (init c4_block) (tensor [[1; 2; 3; 4]]) eq_refl).
Defined.

(** X8: with the 4 x 4 cyclic block as generator, the forward pass sends
    (a, b, c, d) to (b, c, d, a): the input times the transposed block.  So
    (1, 0, 0, 0) goes to (0, 0, 0, 1), and from there to (0, 0, 1, 0). *)
Theorem c4_block_example :
  (forall a b c d,
     forward (init c4_block) (tensor [[a; b; c; d]]) =
     Ok (tensor [[b; c; d; a]])) /\
  forward (init c4_block) (tensor [[1; 0; 0; 0]]) = Ok (tensor [[0; 0; 0; 1]]) /\
  steer_descriptions (init c4_block) (tensor [[1; 0; 0; 0]]) 2 false =
    Ok (tensor [[0; 0; 1; 0]]).
Proof.
  assert (H : forall a b c d,
             forward (init c4_block) (tensor [[a; b; c; d]]) =
             Ok (tensor [[b; c; d; a]])).
  { intros a b c d.
    change (forward (init c4_block) (tensor [[a; b; c; d]]))
      with (Ok (mkTensor 4 [map (dot [a; b; c; d]) (rows c4_block)])).
    rewrite c4_block_rows. reflexivity. }
  split; [exact H|]. split; [apply H|].
  rewrite steer_unfold. change (Z.to_nat 2) with 2%nat.
  rewrite apply_times_first, H. cbn [bind].
  rewrite apply_times_first, H. reflexivity.
Qed.

(** ** Steering step by step *)

Lemma apply_times_add (self : DiscreteSteerer) (k1 k2 : nat) (x : Tensor) :
  apply_times self (k1 + k2) x =
  (y <- apply_times self k1 x ;; apply_times self k2 y).
Proof.
  induction k2 as [|k2 IH].
  - rewrite Nat.add_0_r. cbn [apply_times]. now rewrite bind_ok_r.
  - rewrite Nat.add_succ_r. cbn [apply_times]. rewrite IH.
    now rewrite bind_assoc.
Qed.

(** X9: steering by k1 + k2 steps is steering by k1 steps and then by k2
    steps, the normalization, if any, coming last; an exception of the first
    part is the exception of the whole. *)
Theorem steer_add_powers (self : DiscreteSteerer) (X : Tensor) (k1 k2 : Z)
    (b : bool) :
  (0 <= k1)%Z ->
  (0 <= k2)%Z ->
  steer_descriptions self X (k1 + k2) b =
  (Y <- steer_descriptions self X k1 false ;; steer_descriptions self Y k2 b).
Proof.
  intros H1 H2. rewrite !steer_unfold.
  rewrite Z2Nat.inj_add, apply_times_add by assumption.
  destruct (apply_times self (Z.to_nat k1) X) as [y|e]; cbn [bind].
  - now rewrite steer_unfold.
  - reflexivity.
Qed.

Lemma steer_add_powers_witness :
  (0 <= 1)%Z /\ (0 <= 2)%Z /\
  steer_descriptions (init c4_block) (tensor [[1; 2; 3; 4]]) (1 + 2) true =
  (Y <- steer_descriptions (init c4_block) (tensor [[1; 2; 3; 4]]) 1 false ;;
   steer_descriptions (init c4_block) Y 2 true).
Proof.
  split; [lia|]. split; [lia|].
  apply (steer_add_powers (init c4_block) (tensor [[1; 2; 3; 4]]) 1 2 true);
    lia.
Defined.

Lemma forward_ok (self : DiscreteSteerer) (X : Tensor) :
  ncols X = ncols (generator self) ->
  forward self X =
  Ok (mkTensor (nrows (generator self))
        (map (act (generator self)) (rows X))).
Proof.
  intros H. unfold forward, linear. now rewrite H, Nat.eqb_refl.
Qed.

(** X10: a steerer whose generator is not square takes one step and no
    more: on a batch as wide as the generator has columns, the first
    [forward] returns rows as long as the generator has rows, and the second
    one refuses them. *)
Theorem steer_nonsquare_generator (self : DiscreteSteerer) (X : Tensor)
    (k : Z) (b : bool) :
  nrows (generator self) <> ncols (generator self) ->
  ncols X = ncols (generator self) ->
  (2 <= k)%Z ->
  (exists Y, steer_descriptions self X 1 b = Ok Y /\
             ncols Y = nrows (generator self)) /\
  steer_descriptions self X k b = Raise ShapeError.
Proof.
  intros Hg HX Hk. split.
  - rewrite steer_once, forward_ok by exact HX. cbn [bind].
    eexists. split; [reflexivity|]. now destruct b.
  - rewrite steer_unfold.
    destruct (Z.to_nat k) as [|[|n]] eqn:E; try lia.
    rewrite apply_times_first, forward_ok by exact HX. cbn [bind].
    rewrite apply_times_first, forward_mismatch by exact Hg.
    reflexivity.
Qed.

Lemma steer_nonsquare_generator_witness :
  nrows (generator (init (tensor [[1; 2; 3]; [4; 5; 6]]))) <>
    ncols (generator (init (tensor [[1; 2; 3]; [4; 5; 6]]))) /\
  ncols (tensor [[1; 0; 1]]) =
    ncols (generator (init (tensor [[1; 2; 3]; [4; 5; 6]]))) /\
  (2 <= 2)%Z /\
  (exists Y,
     steer_descriptions (init (tensor [[1; 2; 3]; [4; 5; 6]]))
       (tensor [[1; 0; 1]]) 1 false = Ok Y /\
     ncols Y = nrows (generator (init (tensor [[1; 2; 3]; [4; 5; 6]])))) /\
  steer_descriptions (init (tensor [[1; 2; 3]; [4; 5; 6]]))
    (tensor [[1; 0; 1]]) 2 false = Raise ShapeError.
Proof.
  split; [cbn; lia|]. split; [reflexivity|]. split; [lia|].
  apply (steer_nonsquare_generator (init (tensor [[1; 2; 3]; [4; 5; 6]]))
           (tensor [[1; 0; 1]]) 2 false); [cbn; lia | reflexivity | lia].
Defined.

Lemma steer_rows (self : DiscreteSteerer) (X : Tensor) (k : Z) (b : bool) :
  ncols X = ncols (generator self) ->
  nrows (generator self) = ncols (generator self) ->
  steer_descriptions self X k b =
  let Y := mkTensor (ncols X)
             (map (Nat.iter (Z.to_nat k) (act (generator self))) (rows X)) in
  Ok (if b then normalize Y else Y).
Proof.
  intros HX HG. rewrite steer_unfold, apply_times_rows by assumption.
  reflexivity.
Qed.

(** X11: with a square N x N generator and a power of at least one, steering
    succeeds exactly when the rows of the batch have length N, and the result
    then has the shape of the batch it was given. *)
Theorem steer_square_generator (self : DiscreteSteerer) (X : Tensor) (N : nat)
    (k : Z) (b : bool) :
  shape (generator self) = (N, N) ->
  (1 <= k)%Z ->
  ((exists Y, steer_descriptions self X k b = Ok Y) <-> ncols X = N) /\
  (forall Y, steer_descriptions self X k b = Ok Y -> shape Y = shape X).
Proof.
  intros Hs Hk.
  pose proof (f_equal fst Hs) as Hn. pose proof (f_equal snd Hs) as Hm.
  cbn [shape fst snd] in Hn, Hm.
  destruct (Nat.eq_dec (ncols X) N) as [HX|HX].
  - assert (E := steer_rows self X k b).
    rewrite E by congruence. cbn zeta. split.
    + split; [intros _; exact HX | intros _; eexists; reflexivity].
    + intros Y HY. injection HY as <-.
      destruct b; unfold shape, nrows, normalize; cbn [rows ncols];
        now rewrite ?length_map.
  - rewrite steer_mismatch by (congruence || exact Hk). split.
    + split; [intros [Y HY]; discriminate | intros; contradiction].
    + intros Y HY. discriminate.
Qed.

Lemma steer_square_generator_witness :
  shape (generator (init c4_block)) = (4, 4)%nat /\
  (1 <= 3)%Z /\
  ((exists Y, steer_descriptions (init c4_block) (tensor [[1; 2; 3; 4]]) 3 true
              = Ok Y) <-> ncols (tensor [[1; 2; 3; 4]]) = 4%nat) /\
  (forall Y,
     steer_descriptions (init c4_block) (tensor [[1; 2; 3; 4]]) 3 true = Ok Y ->
     shape Y = shape (tensor [[1; 2; 3; 4]])).
Proof.
  split; [reflexivity|]. split; [lia|].
  apply (steer_square_generator (init c4_block) (tensor [[1; 2; 3; 4]]) 4 3
           true eq_refl).
  lia.
Defined.

Lemma iter_id {A : Type} (f : A -> A) (k : nat) (x : A) :
  f x = x -> Nat.iter k f x = x.
Proof.
  intros H. induction k as [|k IH]; [reflexivity|].
  now rewrite Nat.iter_succ, IH.
Qed.

(** X12: the identity matrix as generator steers nothing: whatever the
    power, a batch of rows of the right length comes back as it is. *)
Theorem steer_identity_generator (n : nat) (X : Tensor) (k : Z) :
  rectangular X ->
  ncols X = n ->
  steer_descriptions (init (identity n)) X k false = Ok X.
Proof.
  intros HX Hc.
  rewrite steer_rows
    by (cbn [generator init]; unfold identity, tabulate, nrows;
        cbn [rows ncols]; now rewrite ?length_map, ?length_seq).
  cbn zeta. f_equal. rewrite <- (tensor_eta X) at 3. f_equal.
  rewrite <- (map_id (rows X)) at 2.
  apply map_ext_in. intros r Hr. apply iter_id.
  cbn [generator init]. apply act_identity.
  unfold rectangular in HX. rewrite Forall_forall in HX.
  rewrite (HX r Hr). exact Hc.
Qed.

Lemma steer_identity_generator_witness :
  rectangular (tensor [[1; 2; 3]; [4; 5; 6]]) /\
  ncols (tensor [[1; 2; 3]; [4; 5; 6]]) = 3%nat /\
  steer_descriptions (init (identity 3)) (tensor [[1; 2; 3]; [4; 5; 6]]) 5
    false = Ok (tensor [[1; 2; 3]; [4; 5; 6]]).
Proof.
  assert (H : rectangular (tensor [[1; 2; 3]; [4; 5; 6]]))
    by (repeat constructor).
  split; [exact H|]. split; [reflexivity|].
  apply (steer_identity_generator 3 (tensor [[1; 2; 3]; [4; 5; 6]]) 5 H
           eq_refl).
Defined.

(** ** The forward pass is a linear map *)









(** ** Steering as a product with a power of the transposed generator *)
















(** ** The C4 steerer is a cyclic shift *)

Lemma iter_rot4_length (k : nat) (r : list R) :
  length (Nat.iter k rot4 r) = length r.
Proof.
  induction k as [|k IH]; [reflexivity|].
  now rewrite Nat.iter_succ, rot4_length.
Qed.

Lemma iter_act_c4 (k : nat) (r : list R) :
  length r = 256%nat ->
  Nat.iter k (act c4_generator) r = Nat.iter k rot4 r.
Proof.
  intros H. induction k as [|k IH]; [reflexivity|].
  rewrite !Nat.iter_succ, IH. unfold act. rewrite c4_generator_blocks.
  apply c4_blocks_rows. now rewrite iter_rot4_length, H.
Qed.

Lemma c4_steer_rows (X : Tensor) (k : Z) (b : bool) :
  rectangular X ->
  ncols X = 256%nat ->
  steer_descriptions (mkSteerer c4_generator false) X k b =
  let Y := mkTensor 256 (map (Nat.iter (Z.to_nat k) rot4) (rows X)) in
  Ok (if b then normalize Y else Y).
Proof.
  intros HX Hc. rewrite steer_rows by (cbn [generator]; now rewrite ?Hc).
  cbn zeta. cbn [generator]. rewrite Hc.
  replace (map (Nat.iter (Z.to_nat k) (act c4_generator)) (rows X))
    with (map (Nat.iter (Z.to_nat k) rot4) (rows X)); [reflexivity|].
  apply map_ext_in. intros r Hr. symmetry. apply iter_act_c4.
  unfold rectangular in HX. rewrite Forall_forall in HX.
  now rewrite (HX r Hr).
Qed.

Lemma iter_rot4_rounds (q m : nat) (r : list R) :
  Nat.iter (m + 4 * q) rot4 r = Nat.iter m rot4 r.
Proof.
  induction q as [|q IH].
  - now rewrite Nat.mul_0_r, Nat.add_0_r.
  - replace (m + 4 * S q)%nat with ((m + 4 * q) + 4)%nat by lia.
    rewrite Nat.iter_add. cbn [Nat.iter nat_rect].
    rewrite rot4_four_times. exact IH.
Qed.

Lemma iter_rot4_mod (k : nat) (r : list R) :
  Nat.iter k rot4 r = Nat.iter (k mod 4) rot4 r.
Proof.
  rewrite <- (iter_rot4_rounds (k / 4) (k mod 4)).
  f_equal. pose proof (Nat.div_mod_eq k 4). lia.
Qed.

(** X15: the C4 steerer shifts every group of four coordinates cyclically,
    once per step, so that on batches of 256-vectors the result of steering
    depends on the power only through its remainder modulo 4. *)
Theorem c4_steer_mod_four (steerer_order : Z) (X : Tensor) (k : Z) (b : bool) :
  rectangular X ->
  ncols X = 256%nat ->
  (0 <= k)%Z ->
  (s <- from_pretrained "C4" steerer_order ;;
   steer_descriptions s X k false) =
    Ok (mkTensor 256 (map (Nat.iter (Z.to_nat k) rot4) (rows X))) /\
  (s <- from_pretrained "C4" steerer_order ;; steer_descriptions s X k b) =
  (s <- from_pretrained "C4" steerer_order ;;
   steer_descriptions s X (k mod 4) b).
Proof.
  intros HX Hc Hk.
  change (from_pretrained "C4" steerer_order)
    with (Ok (mkSteerer c4_generator false)).
  cbn [bind]. rewrite !c4_steer_rows by assumption. cbn zeta.
  split; [reflexivity|].
  replace (map (Nat.iter (Z.to_nat (k mod 4)) rot4) (rows X))
    with (map (Nat.iter (Z.to_nat k) rot4) (rows X)); [reflexivity|].
  apply map_ext. intros r. rewrite iter_rot4_mod. f_equal.
  rewrite Z2Nat.inj_mod by lia. reflexivity.
Qed.

Lemma c4_steer_mod_four_witness :
  rectangular (tabulate 2 256 (fun i j => INR (i + j))) /\
  ncols (tabulate 2 256 (fun i j => INR (i + j))) = 256%nat /\
  (0 <= 7)%Z /\
  (s <- from_pretrained "C4" 8 ;;
   steer_descriptions s (tabulate 2 256 (fun i j => INR (i + j))) 7 false) =
    Ok (mkTensor 256
          (map (Nat.iter (Z.to_nat 7) rot4)
               (rows (tabulate 2 256 (fun i j => INR (i + j)))))) /\
  (s <- from_pretrained "C4" 8 ;;
   steer_descriptions s (tabulate 2 256 (fun i j => INR (i + j))) 7 true) =
  (s <- from_pretrained "C4" 8 ;;
   steer_descriptions s (tabulate 2 256 (fun i j => INR (i + j))) (7 mod 4)
     true).
Proof.
  split; [apply tabulate_rectangular|]. split; [reflexivity|].
  split; [lia|].
  apply (c4_steer_mod_four 8 (tabulate 2 256 (fun i j => INR (i + j))) 7 true
           (tabulate_rectangular _ _ _) eq_refl).
  lia.
Defined.

Lemma sum_sq_rot4 (r : list R) : sum_sq (rot4 r) = sum_sq r.
Proof.
  assert (H : forall n r, (length r <= n)%nat -> sum_sq (rot4 r) = sum_sq r).
  { induction n as [|n IH]; intros l Hl.
    - destruct l; [reflexivity | simpl in Hl; lia].
    - destruct l as [|a [|b [|c [|d l]]]]; try reflexivity.
      cbn [rot4 sum_sq fold_right]. fold (sum_sq (rot4 l)). fold (sum_sq l).
      rewrite IH by (simpl in Hl; lia). ring. }
  now apply (H (length r)).
Qed.

Lemma norm2_iter_rot4 (k : nat) (r : list R) :
  norm2 (Nat.iter k rot4 r) = norm2 r.
Proof.
  induction k as [|k IH]; [reflexivity|].
  rewrite Nat.iter_succ. unfold norm2 in *. now rewrite sum_sq_rot4.
Qed.

Lemma rot4_map (f : R -> R) (r : list R) : rot4 (map f r) = map f (rot4 r).
Proof.
  assert (H : forall n r, (length r <= n)%nat ->
                          rot4 (map f r) = map f (rot4 r)).
  { induction n as [|n IH]; intros l Hl.
    - destruct l; [reflexivity | simpl in Hl; lia].
    - destruct l as [|a [|b [|c [|d l]]]]; try reflexivity.
      cbn [rot4 map]. rewrite IH by (simpl in Hl; lia). reflexivity. }
  now apply (H (length r)).
Qed.

Lemma sum_sq_iter_rot4 (k : nat) (r : list R) :
  sum_sq (Nat.iter k rot4 r) = sum_sq r.
Proof.
  induction k as [|k IH]; [reflexivity|].
  now rewrite Nat.iter_succ, sum_sq_rot4.
Qed.

Lemma iter_rot4_map (f : R -> R) (k : nat) (r : list R) :
  Nat.iter k rot4 (map f r) = map f (Nat.iter k rot4 r).
Proof.
  induction k as [|k IH]; [reflexivity|].
  now rewrite !Nat.iter_succ, IH, rot4_map.
Qed.

Lemma normalize_row_iter_rot4 (k : nat) (r : list R) :
  normalize_row (Nat.iter k rot4 r) = Nat.iter k rot4 (normalize_row r).
Proof.
  unfold normalize_row. rewrite sum_sq_iter_rot4, norm2_iter_rot4.
  destruct (Rlt_dec float32_max (sum_sq r)); symmetry; apply iter_rot4_map.
Qed.

Lemma normalize_row_length (r : list R) :
  length (normalize_row r) = length r.
Proof.
  unfold normalize_row.
  destruct (Rlt_dec float32_max (sum_sq r)); apply length_map.
Qed.

Lemma normalize_rectangular (X : Tensor) :
  rectangular X -> rectangular (normalize X).
Proof.
  unfold rectangular, normalize. cbn [rows ncols]. intros H.
  apply Forall_map. eapply Forall_impl; [|exact H].
  intros r Hr. cbn beta. now rewrite normalize_row_length.
Qed.

(** X16: the C4 steerer moves coordinates and changes none: every row keeps
    its Euclidean norm, and normalizing after steering gives what steering
    the normalized batch gives. *)
Theorem c4_steer_isometry (steerer_order : Z) (X : Tensor) (k : Z) :
  rectangular X ->
  ncols X = 256%nat ->
  (exists Y,
     (s <- from_pretrained "C4" steerer_order ;;
      steer_descriptions s X k false) = Ok Y /\
     map norm2 (rows Y) = map norm2 (rows X)) /\
  (s <- from_pretrained "C4" steerer_order ;; steer_descriptions s X k true) =
  (s <- from_pretrained "C4" steerer_order ;;
   steer_descriptions s (normalize X) k false).
Proof.
  intros HX Hc.
  change (from_pretrained "C4" steerer_order)
    with (Ok (mkSteerer c4_generator false)).
  cbn [bind].
  rewrite !c4_steer_rows
    by (assumption || now apply normalize_rectangular).
  cbn zeta. split.
  - eexists. split; [reflexivity|]. cbn [rows]. rewrite map_map.
    apply map_ext. intros r. apply norm2_iter_rot4.
  - f_equal. unfold normalize. cbn [rows ncols]. f_equal.
    rewrite !map_map. apply map_ext. intros r.
    apply normalize_row_iter_rot4.
Qed.

Lemma c4_steer_isometry_witness :
  rectangular (tabulate 2 256 (fun i j => INR (i + j))) /\
  ncols (tabulate 2 256 (fun i j => INR (i + j))) = 256%nat /\
  (exists Y,
     (s <- from_pretrained "C4" 8 ;;
      steer_descriptions s (tabulate 2 256 (fun i j => INR (i + j))) 3 false)
       = Ok Y /\
     map norm2 (rows Y) =
       map norm2 (rows (tabulate 2 256 (fun i j => INR (i + j))))) /\
  (s <- from_pretrained "C4" 8 ;;
   steer_descriptions s (tabulate 2 256 (fun i j => INR (i + j))) 3 true) =
  (s <- from_pretrained "C4" 8 ;;
   steer_descriptions s (normalize (tabulate 2 256 (fun i j => INR (i + j))))
     3 false).
Proof.
  split; [apply tabulate_rectangular|]. split; [reflexivity|].
  apply (c4_steer_isometry 8 (tabulate 2 256 (fun i j => INR (i + j))) 3
           (tabulate_rectangular _ _ _) eq_refl).
Defined.

(** ** The SO2 steerer, whatever the order *)


(** X3: the SO2 branch has three outcomes, the scale factor
    [2 * 3.14159 / steerer_order] being a Python division of a float by an
    int: OverflowError for an order too large to convert to a float (of
    absolute value at least [2 ^ 1024 - 2 ^ 970]), ZeroDivisionError for the
    order 0, and for every other order, negative ones included, the steerer
    of the rotations by [2 * 3.14159 / steerer_order] times the
    frequencies. *)
Theorem from_pretrained_so2_outcome (steerer_order : Z) :
  from_pretrained "SO2" steerer_order =
  if Z.leb (2 ^ 1024 - 2 ^ 970) (Z.abs steerer_order)
  then Raise OverflowError
  else if Z.eqb steerer_order 0 then Raise ZeroDivisionError
  else Ok (mkSteerer (so2_rotations (2 * 3.14159 / IZR steerer_order)) false).
Proof.
  change (Z.leb (2 ^ 1024 - 2 ^ 970) (Z.abs steerer_order))
    with (int_to_float_overflows steerer_order).
  destruct (int_to_float_overflows steerer_order) eqn:Ho.
  - now rewrite from_pretrained_so2_unfold, Ho.
  - destruct (Z.eqb_spec steerer_order 0) as [->|Hk].
    + reflexivity.
    + now apply from_pretrained_so2_rotations.
Qed.













(** ** Normalized batches *)



Lemma map_div_one (r : list R) : map (fun x => x / 1) r = r.
Proof.
  rewrite <- (map_id r) at 2. apply map_ext. intros x. field.
Qed.












(** ** What the factory returns *)

Lemma c4_generator_square : square 256 c4_generator.
Proof.
  split; [|exact c4_generator_shape].
  rewrite c4_generator_entries. apply tabulate_rectangular.
Qed.

Lemma so2_rotations_square (c : R) : square 253 (so2_rotations c).
Proof.
  split; [|apply so2_rotations_shape].
  unfold so2_rotations.
  apply is_square_block_diag. constructor.
  - apply square_identity.
  - apply Forall_map_intro. intros. apply is_square_rot_like.
Qed.

(** X22: every generator that [from_pretrained] returns is a square matrix,
    of size 256 for "C4" and of size 253 for "SO2". *)
Theorem from_pretrained_square (generator_type : string) (steerer_order : Z)
    (s : DiscreteSteerer) :
  from_pretrained generator_type steerer_order = Ok s ->
  (generator_type = "C4"%string /\ square 256 (generator s)) \/
  (generator_type = "SO2"%string /\ steerer_order <> 0%Z /\
   square 253 (generator s)).
Proof.
  intros H. unfold from_pretrained in H.
  destruct (String.eqb_spec generator_type "C4") as [->|H4].
  - left. injection H as <-. split; [reflexivity|].
    exact c4_generator_square.
  - destruct (String.eqb_spec generator_type "SO2") as [->|H2];
      [|discriminate].
    right.
    destruct (int_to_float_overflows steerer_order) eqn:Hf; [discriminate|].
    destruct (Z.eqb_spec steerer_order 0) as [->|Hk]; [discriminate|].
    split; [reflexivity|]. split; [exact Hk|].
    pose proof (from_pretrained_so2_rotations steerer_order Hf Hk) as E.
    rewrite from_pretrained_so2_unfold, Hf in E.
    apply Z.eqb_neq in Hk. rewrite Hk in E.
    rewrite E in H. injection H as <-. apply so2_rotations_square.
Qed.

Lemma from_pretrained_square_witness :
  from_pretrained "C4" 8 = Ok (mkSteerer c4_generator false) /\
  ((("C4" = "C4")%string /\
    square 256 (generator (mkSteerer c4_generator false))) \/
   (("C4" = "SO2")%string /\ 8%Z <> 0%Z /\
    square 253 (generator (mkSteerer c4_generator false)))).
Proof.
  split; [reflexivity|].
  apply (from_pretrained_square "C4" 8 (mkSteerer c4_generator false)).
  reflexivity.
Defined.


